(** * Rigid-body physics core of madrona (src/physics/physics.cpp)

    Shallow embedding of the narrowphase, the XPBD substep integrator, the
    positional solve, velocity reconstruction and the velocity solve.
    Single-precision floats are modelled by real numbers; the ECS is modelled
    as a total map from entities to their component bundle. *)

From Stdlib Require Import Reals Psatz List ZArith NArith Bool.
Import ListNotations.

Open Scope R_scope.

(** ** Vector and quaternion math (madrona/math.hpp) *)

Module Math.

Record Vector3 := mkV3 { vx : R; vy : R; vz : R }.
Record Vector4 := mkV4 { v4x : R; v4y : R; v4z : R; v4w : R }.
Record Quat := mkQuat { qw : R; qx : R; qy : R; qz : R }.

Definition vzero : Vector3 := mkV3 0 0 0.
Definition v4zero : Vector4 := mkV4 0 0 0 0.

Definition vadd (a b : Vector3) : Vector3 :=
  mkV3 (vx a + vx b) (vy a + vy b) (vz a + vz b).
Definition vsub (a b : Vector3) : Vector3 :=
  mkV3 (vx a - vx b) (vy a - vy b) (vz a - vz b).
Definition vneg (a : Vector3) : Vector3 := mkV3 (- vx a) (- vy a) (- vz a).
Definition vscale (s : R) (a : Vector3) : Vector3 :=
  mkV3 (s * vx a) (s * vy a) (s * vz a).
(** [v / d] *)
Definition vdiv (a : Vector3) (d : R) : Vector3 :=
  mkV3 (vx a / d) (vy a / d) (vz a / d).
Definition dot (a b : Vector3) : R := vx a * vx b + vy a * vy b + vz a * vz b.
Definition cross (a b : Vector3) : Vector3 :=
  mkV3 (vy a * vz b - vz a * vy b)
       (vz a * vx b - vx a * vz b)
       (vx a * vy b - vy a * vx b).
Definition length (a : Vector3) : R := sqrt (dot a a).
(** [(Vector3)scale * v]: component-wise product. *)
Definition vmul (a b : Vector3) : Vector3 :=
  mkV3 (vx a * vx b) (vy a * vy b) (vz a * vz b).

Definition makeVector4 (v : Vector3) (w : R) : Vector4 :=
  mkV4 (vx v) (vy v) (vz v) w.
Definition xyz (v : Vector4) : Vector3 := mkV3 (v4x v) (v4y v) (v4z v).

(** Modelled from the spec: the quaternion operations of madrona/math.hpp
    (not part of the given sources), as the standard Hamilton product,
    conjugate inverse of a unit quaternion, the pure quaternion built from an
    angular vector, and rotation [v + 2 (w (p x v) + p x (p x v))]. *)
Definition qmul (a b : Quat) : Quat :=
  mkQuat (qw a * qw b - qx a * qx b - qy a * qy b - qz a * qz b)
         (qw a * qx b + qx a * qw b + qy a * qz b - qz a * qy b)
         (qw a * qy b - qx a * qz b + qy a * qw b + qz a * qx b)
         (qw a * qz b + qx a * qy b - qy a * qx b + qz a * qw b).
Definition qadd (a b : Quat) : Quat :=
  mkQuat (qw a + qw b) (qx a + qx b) (qy a + qy b) (qz a + qz b).
Definition qsub (a b : Quat) : Quat :=
  mkQuat (qw a - qw b) (qx a - qx b) (qy a - qy b) (qz a - qz b).
Definition qinv (q : Quat) : Quat := mkQuat (qw q) (- qx q) (- qy q) (- qz q).
Definition fromAngularVec (v : Vector3) : Quat := mkQuat 0 (vx v) (vy v) (vz v).
Definition qlength (q : Quat) : R :=
  sqrt (qw q * qw q + qx q * qx q + qy q * qy q + qz q * qz q).
Definition normalize (q : Quat) : Quat :=
  let l := qlength q in mkQuat (qw q / l) (qx q / l) (qy q / l) (qz q / l).
Definition rotateVec (q : Quat) (v : Vector3) : Vector3 :=
  let pure := mkV3 (qx q) (qy q) (qz q) in
  let pure_x_v := cross pure v in
  let pure_x_pure_x_v := cross pure pure_x_v in
  vadd v (vscale 2 (vadd (vscale (qw q) pure_x_v) pure_x_pure_x_v)).

Definition unitQuat (q : Quat) : Prop :=
  qw q * qw q + qx q * qx q + qy q * qy q + qz q * qz q = 1.

End Math.
Import Math.

(** ** Data model *)

Definition Entity := nat.

Record Velocity := mkVelocity { linear : Vector3; angular : Vector3 }.

Record SubstepPrevState := mkPrev { prevPosition : Vector3; prevRotation : Quat }.
Record SubstepStartState := mkStart { startPosition : Vector3; startRotation : Quat }.
Record SubstepVelocityState := mkVelState { prevLinear : Vector3; prevAngular : Vector3 }.

(** The physics components carried by one entity. *)
Record Body := mkBody {
  position : Vector3;
  rotation : Quat;
  scale : Vector3;
  velocity : Velocity;
  objectID : nat;
  prevState : SubstepPrevState;
  startState : SubstepStartState;
  velState : SubstepVelocityState;
}.

(** The ECS view of a world: [ctx.getUnsafe<C>(e)]. *)
Definition World := Entity -> Body.

Definition setBody (w : World) (e : Entity) (b : Body) : World :=
  fun e' => if Nat.eqb e' e then b else w e'.

(** Modelled from the spec: the half-edge mesh of a hull (geometry code not
    part of the given sources); only its vertex array is read here. *)
Record HalfEdgeMesh := mkHEM { hemVertices : list Vector3 }.

Definition getVertexCount (m : HalfEdgeMesh) : nat := List.length (hemVertices m).
Definition vertex (m : HalfEdgeMesh) (i : nat) : Vector3 := nth i (hemVertices m) vzero.

Inductive CollisionPrimitive :=
| Sphere (radius : R)
| Hull (halfEdgeMesh : HalfEdgeMesh)
| Plane.

(** [CollisionPrimitive::Type]: Sphere = 1, Hull = 2, Plane = 4. *)
Definition primType (p : CollisionPrimitive) : N :=
  match p with Sphere _ => 1 | Hull _ => 2 | Plane => 4 end%N.

Definition sphereRadius (p : CollisionPrimitive) : R :=
  match p with Sphere r => r | _ => 0 end.
Definition hullMesh (p : CollisionPrimitive) : HalfEdgeMesh :=
  match p with Hull m => m | _ => mkHEM [] end.

Record RigidBodyMetadata := mkMeta {
  invInertiaTensor : Vector3;
  invMass : R;
  muS : R;
  muD : R;
}.

Record ObjectManager := mkObjMgr {
  primitives : nat -> CollisionPrimitive;
  metadata : nat -> RigidBodyMetadata;
}.

Record Contact := mkContact {
  ref : Entity;
  alt : Entity;
  points : list Vector4;   (* Vector4 points[4] *)
  numPoints : Z;
  normal : Vector3;
  lambdaN : R;
}.

Record CandidateCollision := mkCandidate { cand_a : Entity; cand_b : Entity }.
Record CollisionEvent := mkEvent { ev_a : Entity; ev_b : Entity }.

(** ** SolverData (per-world singleton) *)

(** The contact buffer is modelled by the log of its writes
    [contacts[idx] = c], in program order. *)
Record SolverData := mkSolverData {
  contacts : list (Z * Contact);
  numContacts : Z;
  maxContacts : Z;
  deltaT : R;
  h : R;
  g : Vector3;
  gMagnitude : R;
  restitutionThreshold : R;
}.

(** [SolverData::SolverData(max_contacts_per_step, delta_t, num_substeps, gravity)] *)
Definition initSolverData (max_contacts_per_step : Z) (delta_t : R)
    (num_substeps : Z) (gravity : Vector3) : SolverData :=
  let h := delta_t / IZR num_substeps in
  let gMag := length gravity in
  {| contacts := [];
     numContacts := 0;
     maxContacts := max_contacts_per_step;
     deltaT := delta_t;
     h := h;
     g := gravity;
     gMagnitude := gMag;
     restitutionThreshold := 2 * gMag * h |}.

Definition withContacts (sd : SolverData) (cs : list (Z * Contact)) (n : Z) : SolverData :=
  {| contacts := cs; numContacts := n; maxContacts := maxContacts sd;
     deltaT := deltaT sd; h := h sd; g := g sd; gMagnitude := gMagnitude sd;
     restitutionThreshold := restitutionThreshold sd |}.

(** The write loop [for i < size: contacts[contact_idx + i] = added[i]]. *)
Fixpoint writeContacts (idx : Z) (added : list Contact) : list (Z * Contact) :=
  match added with
  | [] => []
  | c :: rest => (idx, c) :: writeContacts (idx + 1)%Z rest
  end.

(** [SolverData::addContacts]: fetch-add on [numContacts], then
    [assert(contact_idx < maxContacts)] (a failed assertion is [None]), then
    the writes. *)
Definition addContacts (sd : SolverData) (added : list Contact) : option SolverData :=
  let contact_idx := numContacts sd in
  let n' := (contact_idx + Z.of_nat (List.length added))%Z in
  if Z.ltb contact_idx (maxContacts sd)
  then Some (withContacts sd (contacts sd ++ writeContacts contact_idx added) n')
  else None.

(** A sequence of [addContacts] calls within one substep. *)
Fixpoint addContactsSeq (sd : SolverData) (spans : list (list Contact)) : option SolverData :=
  match spans with
  | [] => Some sd
  | s :: rest =>
      match addContacts sd s with
      | Some sd' => addContactsSeq sd' rest
      | None => None
      end
  end.

(** ** Narrowphase *)

(** Modelled from the spec: the collision mesh, plane and manifold types of
    the geometry code (not part of the given sources). *)
Record CollisionMesh := mkCollisionMesh {
  cmHalfEdgeMesh : HalfEdgeMesh;
  vertexCount : nat;
  vertices : list Vector3;
  center : Vector3;
}.

Record GeomPlane := mkGeomPlane { planePoint : Vector3; planeNormal : Vector3 }.

Record Manifold := mkManifold {
  contactPoints : list Vector4;   (* Vector4 contactPoints[4] *)
  numContactPoints : Z;
  mnormal : Vector3;
  aIsReference : bool;
}.

Inductive NarrowphaseTest :=
| SphereSphere | HullHull | SphereHull | PlanePlane | SpherePlane | HullPlane.

(** [NarrowphaseTest test_type {raw}]; any other value reaches
    [__builtin_unreachable()], modelled as [None]. *)
Definition testOfRaw (raw : N) : option NarrowphaseTest :=
  match raw with
  | 1%N => Some SphereSphere
  | 2%N => Some HullHull
  | 3%N => Some SphereHull
  | 4%N => Some PlanePlane
  | 5%N => Some SpherePlane
  | 6%N => Some HullPlane
  | _ => None
  end.

(** Narrowphase effects: the solver singleton and the temporary
    [CollisionEvent] entities made by [ctx.makeTemporary]. *)
Record NPState := mkNPState { solver : SolverData; events : list CollisionEvent }.

Definition npAddContacts (st : NPState) (cs : list Contact) : option NPState :=
  match addContacts (solver st) cs with
  | Some sd => Some (mkNPState sd (events st))
  | None => None
  end.

Definition baseNormal : Vector3 := mkV3 0 0 1.

Section Narrowphase.

(** The SAT routines of the geometry code, taken as given functions. *)
Variable doSAT : CollisionMesh -> CollisionMesh -> Manifold.
Variable doSATPlane : GeomPlane -> CollisionMesh -> Manifold.

Variable w : World.
Variable obj_mgr : ObjectManager.

(** The [transformVertex] lambda: scale, then rotate, then translate. *)
Definition transformVertex (v : Vector3) (e : Entity) : Vector3 :=
  vadd (position (w e)) (rotateVec (rotation (w e)) (vmul (scale (w e)) v)).

(** Filling a [CollisionMesh] from a half-edge mesh, placed by entity [e]. *)
Definition buildCollisionMesh (hEdge : HalfEdgeMesh) (e : Entity) (c : Vector3)
  : CollisionMesh :=
  let n := getVertexCount hEdge in
  {| cmHalfEdgeMesh := hEdge;
     vertexCount := n;
     vertices := map (fun v => transformVertex (vertex hEdge v) e) (seq 0 n);
     center := c |}.

(** The two collision meshes built by the hull/hull branch, as written:
    [hEdgeA = a_prim->hull.halfEdgeMesh], [hEdgeB = a_prim->hull.halfEdgeMesh]. *)
Definition hullHullMeshes (a_prim b_prim : CollisionPrimitive)
    (a_entity b_entity : Entity) : CollisionMesh * CollisionMesh :=
  let hEdgeA := hullMesh a_prim in
  let hEdgeB := hullMesh a_prim in
  (buildCollisionMesh hEdgeA a_entity (position (w a_entity)),
   buildCollisionMesh hEdgeB b_entity (position (w b_entity))).

Definition manifoldContact (r a : Entity) (m : Manifold) : Contact :=
  {| ref := r; alt := a;
     points := [nth 0 (contactPoints m) v4zero; nth 1 (contactPoints m) v4zero;
                nth 2 (contactPoints m) v4zero; nth 3 (contactPoints m) v4zero];
     numPoints := numContactPoints m;
     normal := mnormal m;
     lambdaN := 0 |}.

Definition runNarrowphase (st : NPState) (cand : CandidateCollision) : option NPState :=
  let a_obj := objectID (w (cand_a cand)) in
  let b_obj := objectID (w (cand_b cand)) in
  let a_prim0 := primitives obj_mgr a_obj in
  let b_prim0 := primitives obj_mgr b_obj in
  let raw_a0 := primType a_prim0 in
  let raw_b0 := primType b_prim0 in
  let '(raw_type_a, raw_type_b, a_entity, b_entity, a_prim, b_prim) :=
    if N.ltb raw_b0 raw_a0
    then (raw_b0, raw_a0, cand_b cand, cand_a cand, b_prim0, a_prim0)
    else (raw_a0, raw_b0, cand_a cand, cand_b cand, a_prim0, b_prim0) in
  let a_pos := position (w a_entity) in
  let b_pos := position (w b_entity) in
  match testOfRaw (N.lor raw_type_a raw_type_b) with
  | Some SphereSphere =>
      let a_radius := sphereRadius a_prim in
      let b_radius := sphereRadius b_prim in
      let to_b := vsub b_pos a_pos in
      let dist := length to_b in
      if Rlt_dec 0 dist then
        if Rlt_dec dist (a_radius + b_radius) then
          let mid := vdiv to_b 2 in
          let to_b_normal := vdiv to_b dist in
          match npAddContacts st
                  [{| ref := a_entity; alt := b_entity;
                      points := [makeVector4 (vadd a_pos mid) (dist / 2);
                                 v4zero; v4zero; v4zero];
                      numPoints := 1%Z; normal := to_b_normal; lambdaN := 0 |}] with
          | Some st' =>
              Some (mkNPState (solver st')
                      (events st' ++ [mkEvent (cand_a cand) (cand_b cand)]))
          | None => None
          end
        else Some st
      else Some st
  | Some PlanePlane => Some st
  | Some SpherePlane =>
      let sphere_radius := sphereRadius a_prim in
      let b_rot := rotation (w b_entity) in
      let plane_normal := rotateVec b_rot baseNormal in
      let d := dot plane_normal b_pos in
      let t := dot plane_normal a_pos - d in
      if Rlt_dec t sphere_radius then
        npAddContacts st
          [{| ref := a_entity; alt := b_entity;
              points := [makeVector4 (vadd a_pos (vscale sphere_radius plane_normal)) t;
                         v4zero; v4zero; v4zero];
              numPoints := 1%Z; normal := plane_normal; lambdaN := 0 |}]
      else Some st
  | Some HullHull =>
      let '(collisionMeshA, collisionMeshB) :=
        hullHullMeshes a_prim b_prim a_entity b_entity in
      let manifold := doSAT collisionMeshA collisionMeshB in
      if Z.ltb 0 (numContactPoints manifold) then
        npAddContacts st
          [if aIsReference manifold
           then manifoldContact a_entity b_entity manifold
           else manifoldContact b_entity a_entity manifold]
      else Some st
  | Some SphereHull => None   (* assert(false) *)
  | Some HullPlane =>
      let hEdgeA := hullMesh a_prim in
      let collisionMeshA := buildCollisionMesh hEdgeA a_entity a_pos in
      let b_rot := rotation (w b_entity) in
      let plane_normal := rotateVec b_rot baseNormal in
      let plane := mkGeomPlane b_pos plane_normal in
      let manifold := doSATPlane plane collisionMeshA in
      if Z.ltb 0 (numContactPoints manifold) then
        npAddContacts st [manifoldContact b_entity a_entity manifold]
      else Some st
  | None => None   (* __builtin_unreachable() *)
  end.

End Narrowphase.

(** ** Solver *)

(** [v * s] (vector on the left). *)
Definition vmuls (a : Vector3) (s : R) : Vector3 :=
  mkV3 (vx a * s) (vy a * s) (vz a * s).

Definition multDiag (diag v : Vector3) : Vector3 :=
  mkV3 (vx diag * vx v) (vy diag * vy v) (vz diag * vz v).

(** [(x == 0) ? 0.0f : 1.0f / x] *)
Definition recipOrZero (x : R) : R := if Req_EM_T x 0 then 0 else 1 / x.

Definition bodyWithPose (b : Body) (p : Vector3) (q : Quat) : Body :=
  {| position := p; rotation := q; scale := scale b; velocity := velocity b;
     objectID := objectID b; prevState := prevState b;
     startState := startState b; velState := velState b |}.

Definition bodyWithVelocity (b : Body) (v : Velocity) : Body :=
  {| position := position b; rotation := rotation b; scale := scale b;
     velocity := v; objectID := objectID b; prevState := prevState b;
     startState := startState b; velState := velState b |}.

(** [substepRigidBodies] on one body, [metadata = obj_mgr.metadata[obj_id.idx]];
    it writes [pos], [rot], [vel.angular] and the three substep states. *)
Definition substepRigidBodies (solver : SolverData) (metadata : RigidBodyMetadata)
    (b : Body) : Body :=
  let inv_I := invInertiaTensor metadata in
  let inv_m := invMass metadata in
  let h := h solver in
  let cur_position := position b in
  let cur_rotation := rotation b in
  let prev_state := mkPrev cur_position cur_rotation in
  let linear_velocity := linear (velocity b) in
  let angular_velocity := angular (velocity b) in
  let vel_state := mkVelState linear_velocity angular_velocity in
  let linear_velocity :=
    if Rlt_dec 0 inv_m then vadd linear_velocity (vscale h (g solver))
    else linear_velocity in
  let cur_position := vadd cur_position (vscale h linear_velocity) in
  let I := mkV3 (recipOrZero (vx inv_I)) (recipOrZero (vy inv_I))
                (recipOrZero (vz inv_I)) in
  let torque_ext := vzero in
  let I_angular := multDiag I angular_velocity in
  let angular_velocity :=
    vadd angular_velocity
      (vscale h (multDiag inv_I (vsub torque_ext (cross angular_velocity I_angular)))) in
  let vel := mkVelocity (linear (velocity b)) angular_velocity in
  let angular_quat := fromAngularVec (vscale (1 / 2 * h) angular_velocity) in
  let cur_rotation := qadd cur_rotation (qmul angular_quat cur_rotation) in
  let cur_rotation := normalize cur_rotation in
  {| position := cur_position; rotation := cur_rotation; scale := scale b;
     velocity := vel; objectID := objectID b; prevState := prev_state;
     startState := mkStart cur_position cur_rotation; velState := vel_state |}.

Definition generalizedInverseMass (local : Vector3) (inv_m : R) (inv_I n : Vector3) : R :=
  let lxn := cross local n in
  inv_m + dot (multDiag inv_I lxn) lxn.

(** The poses [x1, x2, q1, q2] the positional solve updates in place. *)
Record Poses := mkPoses { x1 : Vector3; x2 : Vector3; q1 : Quat; q2 : Quat }.

(** [applyPositionalUpdate]: returns the new poses and the new [lambda].
    Rocq's division is total, with [x / 0 = 0]; the float code divides by
    zero when [w1 + w2 + alpha_tilde = 0] (two bodies with zero inverse mass
    and zero inverse inertia) and then writes [inf] and [NaN] poses, which R
    cannot represent: there the model is not the code. The model agrees
    with the code wherever the divisor is nonzero; [solvableContact] below
    is a condition that makes it positive ([positional_divisor_pos]), and
    the theorems on static bodies assume it. *)
Definition applyPositionalUpdate (ps : Poses) (r1 r2 : Vector3)
    (inv_m1 inv_m2 : R) (inv_I1 inv_I2 : Vector3)
    (n_world n1 n2 : Vector3) (c alpha_tilde lambda : R)
    (lambda_check : R -> bool) : Poses * R :=
  let w1 := generalizedInverseMass r1 inv_m1 inv_I1 n1 in
  let w2 := generalizedInverseMass r2 inv_m2 inv_I2 n2 in
  let delta_lambda := (- c - alpha_tilde * lambda) / (w1 + w2 + alpha_tilde) in
  let lambda := lambda + delta_lambda in
  if lambda_check lambda then (ps, lambda) else
  let p := vscale delta_lambda n_world in
  let p_local1 := vscale delta_lambda n1 in
  let p_local2 := vscale delta_lambda n2 in
  let x1' := vadd (x1 ps) (vmuls p inv_m1) in
  let x2' := vsub (x2 ps) (vmuls p inv_m2) in
  let r1_x_p := cross r1 p_local1 in
  let r2_x_p := cross r2 p_local2 in
  let q1' := qadd (q1 ps)
               (qmul (fromAngularVec (vscale (1 / 2) (multDiag inv_I1 r1_x_p))) (q1 ps)) in
  let q2' := qsub (q2 ps)
               (qmul (fromAngularVec (vscale (1 / 2) (multDiag inv_I2 r2_x_p))) (q2 ps)) in
  (mkPoses x1' x2' (normalize q1') (normalize q2'), lambda).

Definition neverCheck (_ : R) : bool := false.
Definition thresholdCheck (lambda_threshold lambda : R) : bool :=
  if Rge_dec lambda lambda_threshold then true else false.

(** [handleContactConstraint]: returns poses, [lambda_n], [lambda_t]. *)
Definition handleContactConstraint (ps : Poses)
    (prev1 prev2 : SubstepPrevState) (inv_m1 inv_m2 : R)
    (inv_I1 inv_I2 : Vector3) (mu_s1 mu_s2 : R) (r1 r2 : Vector3)
    (n_world : Vector3) (lambda_n lambda_t : R) : Poses * R * R :=
  let p1 := vadd (rotateVec (q1 ps) r1) (x1 ps) in
  let p2 := vadd (rotateVec (q2 ps) r2) (x2 ps) in
  let d := dot (vsub p1 p2) n_world in
  if Rle_dec d 0 then (ps, lambda_n, lambda_t) else
  let x1_prev := prevPosition prev1 in
  let q1_prev := prevRotation prev1 in
  let x2_prev := prevPosition prev2 in
  let q2_prev := prevRotation prev2 in
  let p1_hat := vadd (rotateVec q1_prev r1) x1_prev in
  let p2_hat := vadd (rotateVec q2_prev r2) x2_prev in
  let n_local1 := rotateVec (qinv (q1 ps)) n_world in
  let n_local2 := rotateVec (qinv (q2 ps)) n_world in
  let '(ps, lambda_n) :=
    applyPositionalUpdate ps r1 r2 inv_m1 inv_m2 inv_I1 inv_I2
      n_world n_local1 n_local2 d 0 lambda_n neverCheck in
  let delta_p := vsub (vsub p1 p1_hat) (vsub p2 p2_hat) in
  let delta_p_t := vsub delta_p (vscale (dot delta_p n_world) n_world) in
  let tangential_magnitude := length delta_p_t in
  if Rlt_dec 0 tangential_magnitude then
    let tangent_dir := vdiv delta_p_t tangential_magnitude in
    let tangent_dir_local1 := rotateVec (qinv (q1 ps)) tangent_dir in
    let tangent_dir_local2 := rotateVec (qinv (q2 ps)) tangent_dir in
    let mu_s := 1 / 2 * (mu_s1 + mu_s2) in
    let lambda_threshold := lambda_n * mu_s in
    let '(ps, lambda_t) :=
      applyPositionalUpdate ps r1 r2 inv_m1 inv_m2 inv_I1 inv_I2
        tangent_dir tangent_dir_local1 tangent_dir_local2
        tangential_magnitude 0 lambda_t (thresholdCheck lambda_threshold) in
    (ps, lambda_n, lambda_t)
  else (ps, lambda_n, lambda_t).

(** [getLocalSpaceContacts] *)
Definition getLocalSpaceContacts (start1 start2 : SubstepStartState)
    (contact : Contact) (point_idx : nat) : Vector3 * Vector3 :=
  let pt := nth point_idx (points contact) v4zero in
  let contact1 := xyz pt in
  let penetration_depth := v4w pt in
  let contact2 := vsub contact1 (vmuls (normal contact) penetration_depth) in
  let r1 := rotateVec (qinv (startRotation start1)) (vsub contact1 (startPosition start1)) in
  let r2 := rotateVec (qinv (startRotation start2)) (vsub contact2 (startPosition start2)) in
  (r1, r2).

(** The unrolled loop [for i < 4: if (i >= numPoints) continue; ...] of
    [handleContact], over the indices [is]. *)
Fixpoint handleContactPoints (is : list nat) (contact : Contact)
    (start1 start2 : SubstepStartState) (prev1 prev2 : SubstepPrevState)
    (m1 m2 : RigidBodyMetadata) (ps : Poses) (lambda_n lambda_t : R)
    : Poses * R * R :=
  match is with
  | [] => (ps, lambda_n, lambda_t)
  | i :: rest =>
      if Z.leb (numPoints contact) (Z.of_nat i)
      then handleContactPoints rest contact start1 start2 prev1 prev2 m1 m2
             ps lambda_n lambda_t
      else
        let '(r1, r2) := getLocalSpaceContacts start1 start2 contact i in
        let '(ps', lambda_n', lambda_t') :=
          handleContactConstraint ps prev1 prev2 (invMass m1) (invMass m2)
            (invInertiaTensor m1) (invInertiaTensor m2) (muS m1) (muS m2)
            r1 r2 (normal contact) lambda_n lambda_t in
        handleContactPoints rest contact start1 start2 prev1 prev2 m1 m2
          ps' lambda_n' lambda_t'
  end.

Definition setPosition (w : World) (e : Entity) (p : Vector3) : World :=
  setBody w e (bodyWithPose (w e) p (rotation (w e))).
Definition setRotation (w : World) (e : Entity) (q : Quat) : World :=
  setBody w e (bodyWithPose (w e) (position (w e)) q).

(** [handleContact]: the new world and the contact's final [lambdaN]. *)
Definition handleContact (w : World) (obj_mgr : ObjectManager) (contact : Contact)
  : World * R :=
  let b1 := w (ref contact) in
  let b2 := w (alt contact) in
  let metadata1 := metadata obj_mgr (objectID b1) in
  let metadata2 := metadata obj_mgr (objectID b2) in
  let ps0 := mkPoses (position b1) (position b2) (rotation b1) (rotation b2) in
  let '(ps, lambda_n, _) :=
    handleContactPoints [0; 1; 2; 3]%nat contact (startState b1) (startState b2)
      (prevState b1) (prevState b2) metadata1 metadata2 ps0 0 0 in
  let w1 := setPosition w (ref contact) (x1 ps) in
  let w2 := setPosition w1 (alt contact) (x2 ps) in
  let w3 := setRotation w2 (ref contact) (q1 ps) in
  let w4 := setRotation w3 (alt contact) (q2 ps) in
  (w4, lambda_n).

(** [setVelocities]: the new [Velocity] of a body. *)
Definition setVelocities (solver : SolverData) (b : Body) : Velocity :=
  let h := h solver in
  let lin := vdiv (vsub (position b) (prevPosition (prevState b))) h in
  let cur_rotation := rotation b in
  let prev_rotation := prevRotation (prevState b) in
  let delta_q := qmul cur_rotation (qinv prev_rotation) in
  let new_angular := vscale (2 / h) (mkV3 (qx delta_q) (qy delta_q) (qz delta_q)) in
  mkVelocity lin (if Rgt_dec (qw delta_q) 0 then new_angular else vneg new_angular).

(** Linear and angular velocities of the two bodies of a contact. *)
Record VelPair := mkVelPair { v1 : Vector3; v2 : Vector3; omega1 : Vector3; omega2 : Vector3 }.

(** [applyVelocityUpdate]. As in [applyPositionalUpdate], [1 / (w1 + w2)]
    is Rocq's total division: for [w1 + w2 = 0] the float code computes
    [1.f / 0 = inf] and [NaN] velocities, which the model does not follow;
    [solvableContact] excludes that case. *)
Definition applyVelocityUpdate (vs : VelPair) (r1 r2 : Vector3)
    (inv_m1 inv_m2 : R) (inv_I1 inv_I2 : Vector3)
    (delta_v_world delta_v_l1 delta_v_l2 : Vector3) (delta_v_magnitude : R) : VelPair :=
  let w1 := generalizedInverseMass r1 inv_m1 inv_I1 delta_v_l1 in
  let w2 := generalizedInverseMass r2 inv_m2 inv_I2 delta_v_l2 in
  let delta_v_magnitude := delta_v_magnitude * (1 / (w1 + w2)) in
  {| v1 := vadd (v1 vs) (vmuls (vmuls delta_v_world delta_v_magnitude) inv_m1);
     v2 := vsub (v2 vs) (vmuls (vmuls delta_v_world delta_v_magnitude) inv_m2);
     omega1 := vadd (omega1 vs)
                 (multDiag inv_I1 (cross r1 (vmuls delta_v_l1 delta_v_magnitude)));
     omega2 := vsub (omega2 vs)
                 (multDiag inv_I2 (cross r2 (vmuls delta_v_l2 delta_v_magnitude))) |}.

(** The dynamic-friction part of one iteration of the point loop of
    [updateVelocityFromContact]. *)
Definition frictionUpdate (q1 q2 : Quat) (m1 m2 : RigidBodyMetadata)
    (dynamic_friction_magnitude : R) (r1 r2 vt : Vector3) (vs : VelPair) : VelPair :=
  let vt_len := length vt in
  if Req_EM_T vt_len 0 then vs else
  if Req_EM_T dynamic_friction_magnitude 0 then vs else
  let corrected_magnitude := - Rmin dynamic_friction_magnitude vt_len in
  let delta_world := vdiv vt vt_len in
  let delta_local1 := rotateVec (qinv q1) delta_world in
  let delta_local2 := rotateVec (qinv q2) delta_world in
  applyVelocityUpdate vs r1 r2 (invMass m1) (invMass m2)
    (invInertiaTensor m1) (invInertiaTensor m2)
    delta_world delta_local1 delta_local2 corrected_magnitude.

(** One iteration [i] of the point loop of [updateVelocityFromContact]:
    dynamic friction, then restitution along the contact normal. *)
Definition velocityPointStep (q1 q2 : Quat) (start1 start2 : SubstepStartState)
    (prev_vel1 prev_vel2 : SubstepVelocityState) (m1 m2 : RigidBodyMetadata)
    (contact : Contact) (dynamic_friction_magnitude restitution_threshold : R)
    (i : nat) (vs : VelPair) : VelPair :=
  let '(r1, r2) := getLocalSpaceContacts start1 start2 contact i in
  let n := normal contact in
  let v := vsub (vadd (v1 vs) (cross (omega1 vs) r1))
                (vadd (v2 vs) (cross (omega2 vs) r2)) in
  let vn := dot n v in
  let vt := vsub v (vmuls n vn) in
  let vs := frictionUpdate q1 q2 m1 m2 dynamic_friction_magnitude r1 r2 vt vs in
  let v_bar := vsub (vadd (prevLinear prev_vel1) (cross (prevAngular prev_vel1) r1))
                    (vadd (prevLinear prev_vel2) (cross (prevAngular prev_vel2) r2)) in
  let vn_bar := dot n v_bar in
  let e := if Rle_dec (Rabs vn_bar) restitution_threshold then 0 else 4 / 10 in
  let restitution_magnitude := Rmin (- e * vn_bar) 0 - vn in
  let n_local1 := rotateVec (qinv q1) n in
  let n_local2 := rotateVec (qinv q2) n in
  applyVelocityUpdate vs r1 r2 (invMass m1) (invMass m2)
    (invInertiaTensor m1) (invInertiaTensor m2) n n_local1 n_local2
    restitution_magnitude.

Fixpoint velocityPoints (is : list nat) (q1 q2 : Quat)
    (start1 start2 : SubstepStartState) (prev_vel1 prev_vel2 : SubstepVelocityState)
    (m1 m2 : RigidBodyMetadata) (contact : Contact) (dyn thr : R) (vs : VelPair)
  : VelPair :=
  match is with
  | [] => vs
  | i :: rest =>
      let vs := if Z.leb (numPoints contact) (Z.of_nat i) then vs
                else velocityPointStep q1 q2 start1 start2 prev_vel1 prev_vel2
                       m1 m2 contact dyn thr i vs in
      velocityPoints rest q1 q2 start1 start2 prev_vel1 prev_vel2 m1 m2 contact dyn thr vs
  end.

(** [updateVelocityFromContact] *)
Definition updateVelocityFromContact (w : World) (obj_mgr : ObjectManager)
    (contact : Contact) (h restitution_threshold : R) : World :=
  let b1 := w (ref contact) in
  let b2 := w (alt contact) in
  let metadata1 := metadata obj_mgr (objectID b1) in
  let metadata2 := metadata obj_mgr (objectID b2) in
  let vs0 := mkVelPair (linear (velocity b1)) (linear (velocity b2))
                       (angular (velocity b1)) (angular (velocity b2)) in
  let mu_d := 1 / 2 * (muD metadata1 + muD metadata2) in
  let dynamic_friction_magnitude := mu_d * Rabs (lambdaN contact) / h in
  let vs := velocityPoints [0; 1; 2; 3]%nat (rotation b1) (rotation b2)
              (startState b1) (startState b2) (velState b1) (velState b2)
              metadata1 metadata2 contact dynamic_friction_magnitude
              restitution_threshold vs0 in
  let w1 := setBody w (ref contact) (bodyWithVelocity (w (ref contact))
                                       (mkVelocity (v1 vs) (omega1 vs))) in
  setBody w1 (alt contact) (bodyWithVelocity (w1 (alt contact))
                              (mkVelocity (v2 vs) (omega2 vs))).

(** ** Solver loops over the contact buffer *)

(** [solver.contacts[i]]: the last value written at index [i], or the
    initial buffer memory [mem0] where nothing was written. *)
Definition readContactFrom (mem0 : Z -> Contact) (log : list (Z * Contact)) (i : Z) : Contact :=
  fold_left (fun acc '(j, c) => if Z.eqb j i then c else acc) log (mem0 i).

Definition withLambdaN (c : Contact) (l : R) : Contact :=
  {| ref := ref c; alt := alt c; points := points c; numPoints := numPoints c;
     normal := normal c; lambdaN := l |}.

Definition contactIndices (sd : SolverData) : list Z :=
  map Z.of_nat (seq 0 (Z.to_nat (numContacts sd))).

(** One iteration of [solvePositions]: [handleContact] on a copy of
    [contacts[i]], then [contacts[i].lambdaN = contact.lambdaN]. *)
Definition solvePositionsStep (mem0 : Z -> Contact) (obj_mgr : ObjectManager)
    (acc : World * SolverData) (i : Z) : World * SolverData :=
  let '(w, sd) := acc in
  let contact := readContactFrom mem0 (contacts sd) i in
  let '(w', lambda_n) := handleContact w obj_mgr contact in
  (w', withContacts sd (contacts sd ++ [(i, withLambdaN contact lambda_n)]) (numContacts sd)).

(** [solvePositions]: serial over [0 .. numContacts). *)
Definition solvePositions (mem0 : Z -> Contact) (obj_mgr : ObjectManager)
    (w : World) (sd : SolverData) : World * SolverData :=
  fold_left (solvePositionsStep mem0 obj_mgr) (contactIndices sd) (w, sd).

(** [solveVelocities]: [updateVelocityFromContact] for every contact, then
    [numContacts.store(0)]. *)
Definition solveVelocities (mem0 : Z -> Contact) (obj_mgr : ObjectManager)
    (w : World) (sd : SolverData) : World * SolverData :=
  let w' := fold_left
              (fun w i => updateVelocityFromContact w obj_mgr
                            (readContactFrom mem0 (contacts sd) i)
                            (h sd) (restitutionThreshold sd))
              (contactIndices sd) w in
  (w', withContacts sd (contacts sd) 0).

(** ** Swept AABB update *)

(** [v[i]] *)
Definition vget (v : Vector3) (i : nat) : R :=
  match i with 0%nat => vx v | 1%nat => vy v | _ => vz v end.

Record AABB := mkAABB { pMin : Vector3; pMax : Vector3 }.

(** A 3x3 matrix as the code indexes it, [m[i][j]]. *)
Definition Mat3x3 := nat -> nat -> R.

(** The inner loop over [j] for world axis [i] (RTCD page 86), from
    [(lo, hi) = (pos[i], pos[i])]. *)
Fixpoint rotatedExtent (rot_mat : Mat3x3) (obj_aabb : AABB) (i : nat)
    (js : list nat) (lo hi : R) : R * R :=
  match js with
  | [] => (lo, hi)
  | j :: rest =>
      let e := rot_mat i j * vget (pMin obj_aabb) j in
      let f := rot_mat i j * vget (pMax obj_aabb) j in
      if Rlt_dec e f
      then rotatedExtent rot_mat obj_aabb i rest (lo + e) (hi + f)
      else rotatedExtent rot_mat obj_aabb i rest (lo + f) (hi + e)
  end.

(** The expansion by velocity on one axis. *)
Definition expandAxis (delta_t v lo hi : R) : R * R :=
  let expansion_factor := 2 in
  let max_accel := 100 in
  let min_pos_change := max_accel * delta_t * delta_t in
  let pos_delta := expansion_factor * v * delta_t in
  let min_delta := pos_delta - min_pos_change in
  let max_delta := pos_delta + min_pos_change in
  let lo := if Rlt_dec min_delta 0 then lo + min_delta else lo in
  let hi := if Rgt_dec max_delta 0 then hi + max_delta else hi in
  (lo, hi).

Section AABBUpdate.

(** [Mat3x3::fromQuat] of the math library. *)
Variable fromQuat : Quat -> Mat3x3.

Definition worldAxis (delta_t : R) (pos : Vector3) (rot : Quat) (obj_aabb : AABB)
    (vel : Velocity) (i : nat) : R * R :=
  let rot_mat := fromQuat rot in
  let '(lo, hi) := rotatedExtent rot_mat obj_aabb i [0; 1; 2]%nat (vget pos i) (vget pos i) in
  expandAxis delta_t (vget (linear vel) i) lo hi.

(** [updateCollisionAABB]: [obj_aabb = obj_mgr.aabbs[obj_id.idx]],
    [delta_t = SolverData.deltaT]. *)
Definition updateCollisionAABB (delta_t : R) (pos : Vector3) (rot : Quat)
    (obj_aabb : AABB) (vel : Velocity) : AABB :=
  let ax i := worldAxis delta_t pos rot obj_aabb vel i in
  {| pMin := mkV3 (fst (ax 0%nat)) (fst (ax 1%nat)) (fst (ax 2%nat));
     pMax := mkV3 (snd (ax 0%nat)) (snd (ax 1%nat)) (snd (ax 2%nat)) |}.

End AABBUpdate.

(** [sum_{j in js} m[i][j] * p[j]] *)
Definition rowDot (m : Mat3x3) (i : nat) (js : list nat) (p : Vector3) : R :=
  fold_right (fun j s => m i j * vget p j + s) 0 js.

(** ** Task graph of one physics step *)

Inductive PhysicsNode :=
| UpdateAABBs | PreprocessLeaves | BVHUpdate | FindOverlapping
| SubstepRigidBodies | RunNarrowphase | SolvePositions | SetVelocities
| SolveVelocities | ResetTmpAlloc | ClearCandidates.

Definition NodeID := nat.

(** A [TaskGraph::Builder]: the nodes added so far, each with its
    dependencies; [addToGraph] returns the new node's index. *)
Definition Builder := list (PhysicsNode * list NodeID).

Definition addToGraph (b : Builder) (n : PhysicsNode) (deps : list NodeID)
  : Builder * NodeID :=
  (b ++ [(n, deps)], List.length b).

(** One iteration of the substep loop, from [cur_node]. *)
Definition addSubstep (b : Builder) (cur_node : NodeID) : Builder * NodeID :=
  let '(b, rgb_update) := addToGraph b SubstepRigidBodies [cur_node] in
  let '(b, run_narrowphase) := addToGraph b RunNarrowphase [rgb_update] in
  let '(b, solve_pos) := addToGraph b SolvePositions [run_narrowphase] in
  let '(b, vel_set) := addToGraph b SetVelocities [solve_pos] in
  let '(b, solve_vel) := addToGraph b SolveVelocities [vel_set] in
  addToGraph b ResetTmpAlloc [solve_vel].

Fixpoint addSubsteps (n : nat) (b : Builder) (cur_node : NodeID) : Builder * NodeID :=
  match n with
  | O => (b, cur_node)
  | S n' => let '(b, cur) := addSubstep b cur_node in addSubsteps n' b cur
  end.

(** [RigidBodyPhysicsSystem::setupTasks] *)
Definition setupTasks (b : Builder) (deps : list NodeID) (num_substeps : nat)
  : Builder * NodeID :=
  let '(b, update_aabbs) := addToGraph b UpdateAABBs deps in
  let '(b, preprocess_leaves) := addToGraph b PreprocessLeaves [update_aabbs] in
  let '(b, bvh_update) := addToGraph b BVHUpdate [preprocess_leaves] in
  let '(b, find_overlapping) := addToGraph b FindOverlapping [bvh_update] in
  let '(b, cur_node) := addSubsteps num_substeps b find_overlapping in
  addToGraph b ClearCandidates [cur_node].

(** The node kinds one substep adds, in order. *)
Definition substepKinds : list PhysicsNode :=
  [SubstepRigidBodies; RunNarrowphase; SolvePositions; SetVelocities;
   SolveVelocities; ResetTmpAlloc].

(** Every node from index [lo] on depends on exactly the node before it. *)
Definition chainedFrom (lo : nat) (b : Builder) : Prop :=
  forall k, (lo <= k < List.length b)%nat -> exists node, nth_error b k = Some (node, [k - 1]%nat).

(** ** Quantities read off the solver state *)

(** Relative velocity of the two bodies at the local offsets [r1], [r2]. *)
Definition relVel (vs : VelPair) (r1 r2 : Vector3) : Vector3 :=
  vsub (vadd (v1 vs) (cross (omega1 vs) r1)) (vadd (v2 vs) (cross (omega2 vs) r2)).

(** The contact constraint value [d] of [handleContactConstraint]. *)
Definition constraintValue (ps : Poses) (r1 r2 n_world : Vector3) : R :=
  dot (vsub (vadd (rotateVec (q1 ps) r1) (x1 ps)) (vadd (rotateVec (q2 ps) r2) (x2 ps))) n_world.

(** Metadata with a nonnegative inverse mass and a nonnegative inverse
    inertia tensor. *)
Definition physicalMeta (m : RigidBodyMetadata) : Prop :=
  0 <= invMass m /\ 0 <= vx (invInertiaTensor m) /\
  0 <= vy (invInertiaTensor m) /\ 0 <= vz (invInertiaTensor m).

(** A contact whose solve never divides by zero: both bodies have physical
    metadata and at least one of them has a positive inverse mass, so every
    divisor [w1 + w2 (+ alpha_tilde)] of [applyPositionalUpdate] and
    [applyVelocityUpdate] is at least [invMass m1 + invMass m2 > 0]. *)
Definition solvableContact (w : World) (obj_mgr : ObjectManager) (c : Contact) : Prop :=
  let m1 := metadata obj_mgr (objectID (w (ref c))) in
  let m2 := metadata obj_mgr (objectID (w (alt c))) in
  physicalMeta m1 /\ physicalMeta m2 /\ 0 < invMass m1 + invMass m2.

(** The constraint value [d] that [handleContactConstraint] computes for
    point [i] of contact [c] before any update in world [w]; the point is
    solved only when [d > 0]. *)
Definition contactDepth (w : World) (c : Contact) (i : nat) : R :=
  let b1 := w (ref c) in
  let b2 := w (alt c) in
  let '(r1, r2) := getLocalSpaceContacts (startState b1) (startState b2) c i in
  constraintValue (mkPoses (position b1) (position b2) (rotation b1) (rotation b2))
    r1 r2 (normal c).

(** ** Readings of the spec compared with the code *)

(** Section 4.6 of the spec, as worded: negate [omega] exactly when
    [dq.w < 0]. *)
Definition setVelocities_spec (solver : SolverData) (b : Body) : Velocity :=
  let h := h solver in
  let lin := vdiv (vsub (position b) (prevPosition (prevState b))) h in
  let delta_q := qmul (rotation b) (qinv (prevRotation (prevState b))) in
  let new_angular := vscale (2 / h) (mkV3 (qx delta_q) (qy delta_q) (qz delta_q)) in
  mkVelocity lin (if Rlt_dec (qw delta_q) 0 then vneg new_angular else new_angular).

(** What the narrowphase guarantees of a contact it appends, branch by
    branch, with [ref c] and [alt c] as the branch orders them.
    Sphere/sphere: the contact is exactly the one built from the centres,
    one point at the midpoint with depth [dist / 2], [0 < dist < rA + rB],
    and a unit normal. Sphere/plane: the contact is exactly the one built
    from the signed distance [t < r] (any sign), with the rotated plane
    normal, a unit vector when the plane's rotation is unit. Plane/hull and
    hull/hull: the contact carries the manifold that [doSATPlane] or
    [doSAT] returns for the meshes the branch builds. Every contact has at
    least one point; no other pair of primitives appends a contact. *)
Definition contactGuarantee (doSAT : CollisionMesh -> CollisionMesh -> Manifold)
    (doSATPlane : GeomPlane -> CollisionMesh -> Manifold)
    (w : World) (obj_mgr : ObjectManager) (c : Contact) : Prop :=
  let r_pos := position (w (ref c)) in
  let a_pos := position (w (alt c)) in
  (1 <= numPoints c)%Z /\
  match primitives obj_mgr (objectID (w (ref c))),
        primitives obj_mgr (objectID (w (alt c))) with
  | Sphere ra, Sphere rb =>
      let to_b := vsub a_pos r_pos in
      let dist := length to_b in
      0 < dist /\ dist < ra + rb /\ length (normal c) = 1 /\
      c = {| ref := ref c; alt := alt c;
             points := [makeVector4 (vadd r_pos (vdiv to_b 2)) (dist / 2);
                        v4zero; v4zero; v4zero];
             numPoints := 1%Z; normal := vdiv to_b dist; lambdaN := 0 |}
  | Sphere rad, Plane =>
      let n := rotateVec (rotation (w (alt c))) baseNormal in
      let t := dot n r_pos - dot n a_pos in
      t < rad /\ (unitQuat (rotation (w (alt c))) -> length (normal c) = 1) /\
      c = {| ref := ref c; alt := alt c;
             points := [makeVector4 (vadd r_pos (vscale rad n)) t;
                        v4zero; v4zero; v4zero];
             numPoints := 1%Z; normal := n; lambdaN := 0 |}
  | Plane, Hull m =>
      c = manifoldContact (ref c) (alt c)
            (doSATPlane (mkGeomPlane r_pos (rotateVec (rotation (w (ref c))) baseNormal))
                        (buildCollisionMesh w m (alt c) a_pos))
  | Hull _, Hull _ =>
      exists ea eb,
        let meshes := hullHullMeshes w (primitives obj_mgr (objectID (w ea)))
                        (primitives obj_mgr (objectID (w eb))) ea eb in
        let m := doSAT (fst meshes) (snd meshes) in
        c = if aIsReference m then manifoldContact ea eb m else manifoldContact eb ea m
  | _, _ => False
  end.

(** ** Concrete inputs *)

Definition qid : Quat := mkQuat 1 0 0 0.
Definition vone : Vector3 := mkV3 1 1 1.

(** A body at rest at [p] with rotation [q] and object [id]. *)
Definition bodyAt (p : Vector3) (q : Quat) (v : Velocity) (id : nat) : Body :=
  {| position := p; rotation := q; scale := vone; velocity := v; objectID := id;
     prevState := mkPrev p q; startState := mkStart p q;
     velState := mkVelState (linear v) (angular v) |}.

Definition restVel : Velocity := mkVelocity vzero vzero.

Definition meshA : HalfEdgeMesh := mkHEM [mkV3 0 0 0].
Definition meshB : HalfEdgeMesh := mkHEM [mkV3 1 0 0].

Definition dynMeta : RigidBodyMetadata := mkMeta vone 1 (1 / 2) (1 / 2).
Definition staticMeta : RigidBodyMetadata := mkMeta vzero 0 (1 / 2) (1 / 2).

(** Objects: 0 a unit sphere, 1 a plane, 2 and 3 hulls with different
    meshes. Object 1 is static. *)
Definition objMgr : ObjectManager :=
  {| primitives := fun i => match i with
                            | 0%nat => Sphere 1
                            | 1%nat => Plane
                            | 2%nat => Hull meshA
                            | _ => Hull meshB
                            end;
     metadata := fun i => match i with 1%nat => staticMeta | _ => dynMeta end |}.

(** Entities 0..3 carry objects 0..3: a sphere centred half a unit below a
    plane through the origin, and two hulls; entity 4 is a second unit
    sphere one unit beside the first. *)
Definition world0 : World :=
  fun e => match e with
           | 0%nat => bodyAt (mkV3 0 0 (- (1 / 2))) qid restVel 0
           | 1%nat => bodyAt vzero qid restVel 1
           | 2%nat => bodyAt vzero qid restVel 2
           | 3%nat => bodyAt (mkV3 3 0 0) qid restVel 3
           | 4%nat => bodyAt (mkV3 1 0 (- (1 / 2))) qid restVel 0
           | _ => bodyAt vzero qid restVel 1
           end.

Definition solver0 : SolverData := initSolverData 16 1 1 (mkV3 0 0 (-10)).
Definition npState0 : NPState := mkNPState solver0 [].

(** SAT routines that find no contact. *)
Definition noSAT (_ _ : CollisionMesh) : Manifold := mkManifold [] 0 vzero true.
Definition noSATPlane (_ : GeomPlane) (_ : CollisionMesh) : Manifold :=
  mkManifold [] 0 vzero true.

(** A SAT routine reporting the first vertex of its second mesh as the
    single contact point: it shows which vertices the hull/hull branch
    passes for hull B. *)
Definition probeSAT (_ : CollisionMesh) (B : CollisionMesh) : Manifold :=
  mkManifold [makeVector4 (nth 0 (vertices B) vzero) 0] 1 (mkV3 0 0 1) true.

Definition pointContact : Contact :=
  mkContact 0%nat 1%nat [v4zero; v4zero; v4zero; v4zero] 1%Z vzero 0.

(** The sphere of [world0] resting on the plane: one point at the origin
    with depth [1/2] along the plane normal. *)
Definition restingContact : Contact :=
  mkContact 0%nat 1%nat [mkV4 0 0 0 (1 / 2); v4zero; v4zero; v4zero] 1%Z baseNormal 0.

(** ** Supporting lemmas *)

(** Evaluates the vector and quaternion operations on concrete inputs. *)
Ltac vec_unfold :=
  unfold dot, rotateVec, cross, vadd, vscale, vsub, vdiv, vmul, vmuls, vneg,
    length, baseNormal, qid, vzero, vone, world0, bodyAt, makeVector4 in *;
  cbn [vx vy vz qw qx qy qz position rotation scale velocity objectID] in *.
Ltac vec_eval := vec_unfold; vec_unfold.

Lemma writeContacts_length : forall added idx,
  List.length (writeContacts idx added) = List.length added.
Proof. induction added; intros; simpl; auto. Qed.

Lemma writeContacts_index : forall added idx i c,
  In (i, c) (writeContacts idx added) ->
  (idx <= i < idx + Z.of_nat (List.length added))%Z.
Proof.
  induction added as [|a rest IH]; intros idx i c Hin; simpl in Hin.
  - contradiction.
  - destruct Hin as [Heq | Hin].
    + inversion Heq; subst. simpl List.length. lia.
    + apply IH in Hin. simpl List.length. lia.
Qed.

Fixpoint spanTotal (spans : list (list Contact)) : Z :=
  match spans with
  | [] => 0%Z
  | s :: rest => (Z.of_nat (List.length s) + spanTotal rest)%Z
  end.

Lemma spanTotal_nonneg : forall spans, (0 <= spanTotal spans)%Z.
Proof. induction spans; simpl; lia. Qed.

(** Sized correctly, a sequence of [addContacts] stays within the buffer. *)
Lemma addContactsSeq_within_capacity : forall spans sd sd',
  addContactsSeq sd spans = Some sd' ->
  (numContacts sd + spanTotal spans <= maxContacts sd)%Z ->
  maxContacts sd' = maxContacts sd /\
  (numContacts sd' <= maxContacts sd)%Z /\
  forall i c, In (i, c) (contacts sd') ->
    In (i, c) (contacts sd) \/ (numContacts sd <= i < maxContacts sd)%Z.
Proof.
  induction spans as [|s rest IH]; intros sd sd' Hrun Hsz; simpl in Hrun, Hsz.
  - inversion Hrun; subst. split; [reflexivity | split; [lia | auto]].
  - unfold addContacts in Hrun.
    destruct (Z.ltb (numContacts sd) (maxContacts sd)) eqn:Hlt; [|discriminate].
    pose proof (spanTotal_nonneg rest) as Hnn.
    specialize (IH _ _ Hrun). simpl in IH.
    destruct IH as [Hmax [Hnum Hidx]]; [lia|].
    split; [exact Hmax | split; [lia|]].
    intros i c Hin. apply Hidx in Hin.
    destruct Hin as [Hin | Hin]; [|right; lia].
    apply in_app_or in Hin. destruct Hin as [Hin | Hin]; [left; exact Hin|].
    right. apply writeContacts_index in Hin. lia.
Qed.

Lemma vadd_vmuls_zero : forall x p, vadd x (vmuls p 0) = x.
Proof. intros [a b c] [d e f]; unfold vadd, vmuls; simpl; f_equal; ring. Qed.

Lemma vsub_vmuls_zero : forall x p, vsub x (vmuls p 0) = x.
Proof. intros [a b c] [d e f]; unfold vsub, vmuls; simpl; f_equal; ring. Qed.

(** A body with zero inverse mass is not moved by a positional update. *)
(** The resting contact of [world0] is solvable and active, and every body
    of [world0] has a unit rotation. *)
Lemma restingContact_solvable : solvableContact world0 objMgr restingContact.
Proof. unfold solvableContact, physicalMeta; simpl; repeat split; lra. Qed.

Lemma qinv_qid : qinv qid = qid.
Proof. unfold qinv, qid; simpl. f_equal; ring. Qed.

Lemma rotateVec_qid : forall v, rotateVec qid v = v.
Proof.
  intros [a b c]. unfold rotateVec, qid, cross, vadd, vscale. simpl. f_equal; ring.
Qed.

Lemma restingContact_active : 0 < contactDepth world0 restingContact 0.
Proof.
  unfold contactDepth, restingContact. cbn [ref alt normal].
  unfold world0, bodyAt. cbn [startState position rotation].
  unfold getLocalSpaceContacts.
  cbn [startRotation startPosition points nth].
  rewrite qinv_qid, !rotateVec_qid.
  unfold constraintValue. cbn [x1 x2 q1 q2]. rewrite !rotateVec_qid.
  unfold dot, vsub, vadd, vmuls, xyz, baseNormal, vzero.
  cbn [normal vx vy vz v4x v4y v4z v4w].
  lra.
Qed.

Lemma world0_unit : forall x, unitQuat (rotation (world0 x)).
Proof.
  intros x. unfold unitQuat.
  destruct x as [|[|[|[|[|x]]]]]; simpl; ring.
Qed.

Lemma restingContact_indices : forall i,
  In i (contactIndices (withContacts solver0 [(0%Z, restingContact)] 1)) ->
  solvableContact world0 objMgr
    (readContactFrom (fun _ => restingContact)
       (contacts (withContacts solver0 [(0%Z, restingContact)] 1)) i).
Proof.
  intros i Hi. simpl in Hi. destruct Hi as [<-|[]].
  exact restingContact_solvable.
Qed.

(** With a nonnegative inverse inertia tensor, the generalized inverse
    mass is at least the inverse mass. *)
Lemma generalizedInverseMass_ge : forall r m I n,
  0 <= vx I -> 0 <= vy I -> 0 <= vz I -> m <= generalizedInverseMass r m I n.
Proof.
  intros r m [ix iy iz] n Hx Hy Hz. simpl in *.
  unfold generalizedInverseMass, multDiag, dot. cbn [vx vy vz].
  set (a := vx (cross r n)). set (b := vy (cross r n)). set (c := vz (cross r n)).
  assert (0 <= ix * a * a) by (rewrite Rmult_assoc; apply Rmult_le_pos; [lra | apply Rle_0_sqr]).
  assert (0 <= iy * b * b) by (rewrite Rmult_assoc; apply Rmult_le_pos; [lra | apply Rle_0_sqr]).
  assert (0 <= iz * c * c) by (rewrite Rmult_assoc; apply Rmult_le_pos; [lra | apply Rle_0_sqr]).
  lra.
Qed.

(** The divisors of a solvable contact are positive: the float code never
    divides by zero on it. *)
Lemma positional_divisor_pos : forall m1 m2 r1 r2 n1 n2 alpha,
  physicalMeta m1 -> physicalMeta m2 -> 0 < invMass m1 + invMass m2 -> 0 <= alpha ->
  0 < generalizedInverseMass r1 (invMass m1) (invInertiaTensor m1) n1 +
      generalizedInverseMass r2 (invMass m2) (invInertiaTensor m2) n2 + alpha.
Proof.
  intros m1 m2 r1 r2 n1 n2 alpha (_ & H1x & H1y & H1z) (_ & H2x & H2y & H2z) Hs Ha.
  pose proof (generalizedInverseMass_ge r1 (invMass m1) (invInertiaTensor m1) n1 H1x H1y H1z).
  pose proof (generalizedInverseMass_ge r2 (invMass m2) (invInertiaTensor m2) n2 H2x H2y H2z).
  lra.
Qed.

Lemma applyPositionalUpdate_static : forall ps r1 r2 m1 m2 I1 I2 nw n1 n2 c a l chk,
  (m1 = 0 -> x1 (fst (applyPositionalUpdate ps r1 r2 m1 m2 I1 I2 nw n1 n2 c a l chk)) = x1 ps) /\
  (m2 = 0 -> x2 (fst (applyPositionalUpdate ps r1 r2 m1 m2 I1 I2 nw n1 n2 c a l chk)) = x2 ps).
Proof.
  intros. unfold applyPositionalUpdate.
  destruct (chk _); simpl; split; intros; subst; auto.
  - apply vadd_vmuls_zero.
  - apply vsub_vmuls_zero.
Qed.

Lemma handleContactConstraint_static : forall ps p1 p2 m1 m2 I1 I2 s1 s2 r1 r2 n ln lt,
  (m1 = 0 -> x1 (fst (fst (handleContactConstraint ps p1 p2 m1 m2 I1 I2 s1 s2 r1 r2 n ln lt))) = x1 ps) /\
  (m2 = 0 -> x2 (fst (fst (handleContactConstraint ps p1 p2 m1 m2 I1 I2 s1 s2 r1 r2 n ln lt))) = x2 ps).
Proof.
  intros. unfold handleContactConstraint.
  destruct (Rle_dec _ 0); [simpl; auto|].
  match goal with
  | |- context [applyPositionalUpdate ps ?a ?b ?c ?d ?e ?f ?g ?h ?i ?j ?k ?l ?m] =>
      pose proof (applyPositionalUpdate_static ps a b c d e f g h i j k l m) as [Ha Hb];
      destruct (applyPositionalUpdate ps a b c d e f g h i j k l m) as [ps1 ln1]
  end.
  simpl in Ha, Hb.
  destruct (Rlt_dec 0 _); [|simpl; auto].
  match goal with
  | |- context [applyPositionalUpdate ps1 ?a ?b ?c ?d ?e ?f ?g ?h ?i ?j ?k ?l ?m] =>
      pose proof (applyPositionalUpdate_static ps1 a b c d e f g h i j k l m) as [Hc Hd];
      destruct (applyPositionalUpdate ps1 a b c d e f g h i j k l m) as [ps2 lt2]
  end.
  simpl in Hc, Hd |- *. split; intro Hm.
  - rewrite (Hc Hm). apply (Ha Hm).
  - rewrite (Hd Hm). apply (Hb Hm).
Qed.

Lemma handleContactPoints_static : forall is contact s1 s2 p1 p2 m1 m2 ps ln lt,
  (invMass m1 = 0 -> x1 (fst (fst (handleContactPoints is contact s1 s2 p1 p2 m1 m2 ps ln lt))) = x1 ps) /\
  (invMass m2 = 0 -> x2 (fst (fst (handleContactPoints is contact s1 s2 p1 p2 m1 m2 ps ln lt))) = x2 ps).
Proof.
  induction is as [|i rest IH]; intros; simpl; [auto|].
  destruct (Z.leb _ _); [apply IH|].
  destruct (getLocalSpaceContacts s1 s2 contact i) as [r1 r2].
  match goal with
  | |- context [handleContactConstraint ps ?a ?b ?c ?d ?e ?f ?g ?h ?i ?j ?k ?l ?m] =>
      pose proof (handleContactConstraint_static ps a b c d e f g h i j k l m) as [Ha Hb];
      destruct (handleContactConstraint ps a b c d e f g h i j k l m) as [[ps1 ln1] lt1]
  end.
  simpl in Ha, Hb.
  destruct (IH contact s1 s2 p1 p2 m1 m2 ps1 ln1 lt1) as [Hc Hd].
  split; intro Hm.
  - rewrite (Hc Hm). apply (Ha Hm).
  - rewrite (Hd Hm). apply (Hb Hm).
Qed.

Lemma position_setRotation : forall w e q e',
  position (setRotation w e q e') = position (w e').
Proof.
  intros. unfold setRotation, setBody. destruct (Nat.eqb e' e) eqn:E; [|reflexivity].
  apply Nat.eqb_eq in E; subst. reflexivity.
Qed.

Lemma position_setPosition : forall w e p e',
  position (setPosition w e p e') = if Nat.eqb e' e then p else position (w e').
Proof. intros. unfold setPosition, setBody. destruct (Nat.eqb e' e); reflexivity. Qed.

Lemma objectID_setPosition : forall w e p e',
  objectID (setPosition w e p e') = objectID (w e').
Proof. intros. unfold setPosition, setBody. destruct (Nat.eqb e' e) eqn:E; [|reflexivity].
  apply Nat.eqb_eq in E; subst. reflexivity.
Qed.

Lemma normalize_unit : forall q, unitQuat q -> normalize q = q.
Proof.
  intros [a b c d] Hu. unfold unitQuat in Hu. simpl in Hu.
  unfold normalize, qlength. simpl. rewrite Hu, sqrt_1.
  unfold Rdiv. rewrite Rinv_1, !Rmult_1_r. reflexivity.
Qed.

Lemma qadd_qmul_zero : forall v q,
  vx v = 0 -> vy v = 0 -> vz v = 0 -> qadd q (qmul (fromAngularVec v) q) = q.
Proof.
  intros [a b c] [w x y z] Ha Hb Hc; simpl in *; subst.
  unfold qadd, qmul, fromAngularVec; simpl. f_equal; ring.
Qed.

Lemma npAddContacts_single : forall st c st',
  npAddContacts st [c] = Some st' ->
  contacts (solver st') = contacts (solver st) ++ [(numContacts (solver st), c)] /\
  events st' = events st.
Proof.
  intros st c st' H. unfold npAddContacts, addContacts in H.
  destruct (Z.ltb _ _); [|discriminate].
  inversion H; subst. split; reflexivity.
Qed.

Lemma dot_self_nonneg : forall v, 0 <= dot v v.
Proof. intros [a b c]; unfold dot; simpl; nra. Qed.

(** Dividing a nonzero vector by its length gives a unit vector. *)
Lemma length_vdiv_length : forall v, 0 < length v -> length (vdiv v (length v)) = 1.
Proof.
  intros v Hl.
  assert (Hs : sqrt (dot v v) * sqrt (dot v v) = dot v v)
    by (apply sqrt_sqrt; apply dot_self_nonneg).
  unfold length in *. destruct v as [a b c]. unfold dot, vdiv in *; simpl in *.
  set (l := sqrt (a * a + b * b + c * c)) in *.
  replace (a / l * (a / l) + b / l * (b / l) + c / l * (c / l))
    with ((a * a + b * b + c * c) / (l * l)) by (field; lra).
  rewrite Hs. unfold Rdiv. rewrite Rinv_r; [apply sqrt_1|].
  intro H0. rewrite H0 in Hs. rewrite <- Hs in H0. nra.
Qed.

Lemma dot_rotate_baseNormal : forall q,
  let s := qw q * qw q + qx q * qx q + qy q * qy q + qz q * qz q in
  dot (rotateVec q baseNormal) (rotateVec q baseNormal) =
    s * s + (1 - s) * (2 * (qw q * qw q - qx q * qx q - qy q * qy q + qz q * qz q) + 1 - s).
Proof.
  intros [w x y z] s. subst s.
  unfold dot, rotateVec, baseNormal, cross, vadd, vscale; simpl. ring.
Qed.

(** A unit rotation keeps [(0,0,1)] of unit length. *)
Lemma length_rotate_baseNormal : forall q,
  unitQuat q -> length (rotateVec q baseNormal) = 1.
Proof.
  intros q Hu. unfold length. rewrite dot_rotate_baseNormal.
  unfold unitQuat in Hu. rewrite Hu.
  replace (1 * 1 + (1 - 1) * (2 * (qw q * qw q - qx q * qx q - qy q * qy q + qz q * qz q) + 1 - 1))
    with 1 by ring.
  apply sqrt_1.
Qed.

(** The narrowphase on the sphere of [world0] (centre half a unit below the
    plane) and the plane: one contact of depth [-1/2] is appended and no
    [CollisionEvent] is made. *)
Lemma spherePlane_below_run : exists c,
  runNarrowphase noSAT noSATPlane world0 objMgr npState0 (mkCandidate 0%nat 1%nat) =
    Some (mkNPState (withContacts solver0 [(0%Z, c)] 1) []) /\
  ref c = 0%nat /\ alt c = 1%nat /\ v4w (nth 0 (points c) v4zero) = - (1 / 2).
Proof.
  unfold runNarrowphase. simpl.
  destruct (Rlt_dec _ 1) as [H|H].
  - eexists. split; [reflexivity|]. split; [reflexivity|]. split; [reflexivity|].
    simpl. vec_eval. ring.
  - exfalso. apply H. vec_eval. lra.
Qed.

(** ** Claims *)

(** C2 (code bug): the assertion of [addContacts] only checks the first index
    of the span. With [maxContacts = 2] and one contact already stored, a
    span of two contacts passes [assert(1 < 2)] and writes [contacts[2]],
    one past the end of the buffer. *)
Theorem addContacts_assert_misses_span_overflow :
  let sd := withContacts (initSolverData 2 1 1 vzero) [(0%Z, pointContact)] 1 in
  maxContacts sd = 2%Z /\
  option_map contacts (addContacts sd [pointContact; pointContact]) =
    Some [(0%Z, pointContact); (1%Z, pointContact); (2%Z, pointContact)].
Proof. split; reflexivity. Qed.

(** C8 (counterexample): for a half turn about x, [dq.w = 0]; the code
    negates the angular velocity there, the claim's rule does not. *)
Lemma setVelocities_half_turn_counterexample :
  let b := {| position := vzero; rotation := mkQuat 0 1 0 0; scale := vone;
              velocity := restVel; objectID := 0%nat;
              prevState := mkPrev vzero qid; startState := mkStart vzero qid;
              velState := mkVelState vzero vzero |} in
  setVelocities solver0 b <> setVelocities_spec solver0 b.
Proof.
  intros b Heq. unfold setVelocities, setVelocities_spec in Heq.
  simpl in Heq.
  destruct (Rgt_dec _ 0) as [Hg|Hg]; [simpl in Hg; lra|].
  destruct (Rlt_dec _ 0) as [Hl|Hl]; [simpl in Hl; lra|].
  injection Heq as Hx. unfold h in Hx; simpl in Hx.
  field_simplify in Hx; lra.
Qed.

(** C8 (amended): [setVelocities] sets the linear velocity to
    [(pos - prevPosition) / h] and the angular velocity to
    [(2/h) * dq.xyz] with [dq = rot * prevRotation^-1], negated exactly when
    [dq.w <= 0]. *)
Theorem setVelocities_finite_difference : forall solver b,
  let hh := h solver in
  let dq := qmul (rotation b) (qinv (prevRotation (prevState b))) in
  let omega := vscale (2 / hh) (mkV3 (qx dq) (qy dq) (qz dq)) in
  setVelocities solver b =
    mkVelocity (vdiv (vsub (position b) (prevPosition (prevState b))) hh)
               (if Rle_dec (qw dq) 0 then vneg omega else omega).
Proof.
  intros solver b hh dq omega. unfold setVelocities.
  destruct (Rgt_dec (qw (qmul (rotation b) (qinv (prevRotation (prevState b))))) 0) as [Hg|Hg];
  destruct (Rle_dec (qw dq) 0) as [Hl|Hl]; unfold dq in Hl; try lra; reflexivity.
Qed.

(** C10: [substepRigidBodies] leaves [Velocity.linear] as it was (gravity only
    reaches a local copy) and sets [Velocity.angular] to
    [omega + h * invI (.) (-(omega x (I (.) omega)))], for every body
    whatever its mass. *)
Theorem substepRigidBodies_velocity_write : forall solver md b,
  let omega := angular (velocity b) in
  let inv_I := invInertiaTensor md in
  let I := mkV3 (recipOrZero (vx inv_I)) (recipOrZero (vy inv_I))
                (recipOrZero (vz inv_I)) in
  velocity (substepRigidBodies solver md b) =
    mkVelocity (linear (velocity b))
      (vadd omega (vscale (h solver)
                     (multDiag inv_I (vneg (cross omega (multDiag I omega)))))).
Proof.
  intros solver md b. cbv zeta. unfold substepRigidBodies. simpl.
  f_equal. unfold vadd, vscale, multDiag, vneg, vsub, vzero. simpl.
  f_equal; ring.
Qed.

(** C9: one contact point of the velocity solve applies, after dynamic
    friction, the velocity update along the normal [n] with magnitude
    [min(-e * vn_bar, 0) - vn], where [e = 0.4] if [|vn_bar| > threshold]
    and [0] otherwise, [vn_bar] the normal relative velocity at the start of
    the substep and [vn] the one at loop entry; the threshold fixed by
    [SolverData]'s constructor is [2 * |g| * (deltaT / numSubsteps)]. *)
Theorem velocity_restitution_impulse :
  (forall q1 q2 start1 start2 pv1 pv2 m1 m2 contact dyn thr i vs,
    let r1 := fst (getLocalSpaceContacts start1 start2 contact i) in
    let r2 := snd (getLocalSpaceContacts start1 start2 contact i) in
    let n := normal contact in
    let v := vsub (vadd (v1 vs) (cross (omega1 vs) r1))
                  (vadd (v2 vs) (cross (omega2 vs) r2)) in
    let vn := dot n v in
    let v_bar := vsub (vadd (prevLinear pv1) (cross (prevAngular pv1) r1))
                      (vadd (prevLinear pv2) (cross (prevAngular pv2) r2)) in
    let vn_bar := dot n v_bar in
    let e := if Rlt_dec thr (Rabs vn_bar) then 4 / 10 else 0 in
    velocityPointStep q1 q2 start1 start2 pv1 pv2 m1 m2 contact dyn thr i vs =
      applyVelocityUpdate
        (frictionUpdate q1 q2 m1 m2 dyn r1 r2 (vsub v (vmuls n vn)) vs)
        r1 r2 (invMass m1) (invMass m2) (invInertiaTensor m1) (invInertiaTensor m2)
        n (rotateVec (qinv q1) n) (rotateVec (qinv q2) n)
        (Rmin (- e * vn_bar) 0 - vn)) /\
  (forall max_contacts delta_t num_substeps gravity,
    restitutionThreshold (initSolverData max_contacts delta_t num_substeps gravity) =
      2 * length gravity * (delta_t / IZR num_substeps)).
Proof.
  split; [|reflexivity].
  intros q1 q2 start1 start2 pv1 pv2 m1 m2 contact dyn thr i vs.
  unfold velocityPointStep.
  destruct (getLocalSpaceContacts start1 start2 contact i) as [r1 r2]. simpl.
  match goal with
  | |- context [Rle_dec ?a ?b] => destruct (Rle_dec a b) as [Hle|Hle]
  end;
  match goal with
  | |- context [Rlt_dec ?a ?b] => destruct (Rlt_dec a b) as [Hlt|Hlt]
  end; try lra; reflexivity.
Qed.

(** C6 (counterexample): a body with [invMass = 0] and a nonzero linear
    velocity is moved by [substepRigidBodies]. *)
Lemma substep_static_body_moves_counterexample :
  let b := bodyAt vzero qid (mkVelocity (mkV3 1 0 0) vzero) 1 in
  invMass staticMeta = 0 /\ position (substepRigidBodies solver0 staticMeta b) <> position b.
Proof.
  split; [reflexivity|].
  unfold substepRigidBodies; simpl.
  destruct (Rlt_dec 0 0) as [H|H]; [lra|].
  simpl. intro Heq. injection Heq as Hx _ _. unfold h, solver0 in Hx; simpl in Hx.
  field_simplify in Hx. lra.
Qed.

(** C6 (amended): for a body whose metadata has [invMass = 0],
    [substepRigidBodies] adds no gravity: its position advances by exactly
    [h * vel.linear] (so it is unchanged when the linear velocity is zero),
    and its rotation is unchanged when its angular velocity is zero and its
    rotation is a unit quaternion. The positional solve of a contact
    involving the body leaves its position unchanged when the contact is
    solvable (physical metadata on both bodies, one of them with a positive
    inverse mass) and both rotations are unit quaternions. These conditions
    keep every division of the float code away from zero
    ([positional_divisor_pos]) and every normalized quaternion away from
    zero. Without them, a contact between two static bodies with zero inverse
    inertia makes the code divide by zero and write a [NaN] position. *)
Theorem static_body_frame : forall solver w obj_mgr e c,
  invMass (metadata obj_mgr (objectID (w e))) = 0 ->
  let md := metadata obj_mgr (objectID (w e)) in
  let b := w e in
  position (substepRigidBodies solver md b) =
    vadd (position b) (vscale (h solver) (linear (velocity b))) /\
  (angular (velocity b) = vzero -> unitQuat (rotation b) ->
     rotation (substepRigidBodies solver md b) = rotation b) /\
  (e = ref c \/ e = alt c -> solvableContact w obj_mgr c ->
     unitQuat (rotation (w (ref c))) -> unitQuat (rotation (w (alt c))) ->
     position (fst (handleContact w obj_mgr c) e) = position b).
Proof.
  intros solver w obj_mgr e c Hm md b.
  split; [|split].
  - unfold substepRigidBodies. subst md. rewrite Hm.
    destruct (Rlt_dec 0 0) as [H|H]; [lra|]. reflexivity.
  - intros Hw Hu. unfold substepRigidBodies. cbv zeta. simpl rotation.
    subst b. rewrite Hw. rewrite qadd_qmul_zero.
    + apply normalize_unit; exact Hu.
    + simpl. ring.
    + simpl. ring.
    + simpl. ring.
  - intros Hrefalt _ _ _. unfold handleContact.
    match goal with
    | |- context [handleContactPoints ?is c ?s1 ?s2 ?p1 ?p2 ?m1 ?m2 ?ps ?l1 ?l2] =>
        pose proof (handleContactPoints_static is c s1 s2 p1 p2 m1 m2 ps l1 l2) as [Ha Hb];
        destruct (handleContactPoints is c s1 s2 p1 p2 m1 m2 ps l1 l2) as [[ps' ln] lt]
    end.
    simpl in Ha, Hb |- *.
    rewrite !position_setRotation, !position_setPosition.
    destruct (Nat.eqb e (alt c)) eqn:Ea.
    + apply Nat.eqb_eq in Ea. subst e. apply Hb. exact Hm.
    + destruct (Nat.eqb e (ref c)) eqn:Er; [|reflexivity].
      apply Nat.eqb_eq in Er. subst e. apply Ha. exact Hm.
Qed.

(** The static plane of [world0] under the resting sphere: the contact is
    solvable, its point is active ([d = 1/2 > 0]), and the plane keeps its
    position. *)
Lemma static_body_frame_witness :
  invMass (metadata objMgr (objectID (world0 1%nat))) = 0 /\
  solvableContact world0 objMgr restingContact /\
  0 < contactDepth world0 restingContact 0 /\
  position (fst (handleContact world0 objMgr restingContact) 1%nat) = position (world0 1%nat).
Proof.
  split; [reflexivity|]. split; [exact restingContact_solvable|].
  split; [exact restingContact_active|].
  apply (static_body_frame solver0 world0 objMgr 1%nat restingContact);
    [reflexivity | right; reflexivity | exact restingContact_solvable
    | apply world0_unit | apply world0_unit].
Defined.

(** C4: for a sphere entity [s] of radius [r] and a plane entity [p], in
    either order in the candidate, with [n] the plane's rotation applied to
    [(0,0,1)] and [t = n.a_pos - n.b_pos]: if [t < r] the narrowphase
    appends exactly the contact [{ref = s, alt = p, one point at
    a_pos + n*r with depth t, normal n}], otherwise it changes nothing. *)
Theorem spherePlane_contact : forall doSAT doSATPlane w obj_mgr st s p r cand,
  primitives obj_mgr (objectID (w s)) = Sphere r ->
  primitives obj_mgr (objectID (w p)) = Plane ->
  cand = mkCandidate s p \/ cand = mkCandidate p s ->
  let n := rotateVec (rotation (w p)) baseNormal in
  let t := dot n (position (w s)) - dot n (position (w p)) in
  (t < r -> runNarrowphase doSAT doSATPlane w obj_mgr st cand =
     npAddContacts st
       [{| ref := s; alt := p;
           points := [makeVector4 (vadd (position (w s)) (vscale r n)) t;
                      v4zero; v4zero; v4zero];
           numPoints := 1%Z; normal := n; lambdaN := 0 |}]) /\
  (~ t < r -> runNarrowphase doSAT doSATPlane w obj_mgr st cand = Some st).
Proof.
  intros doSAT doSATPlane w obj_mgr st s p r cand Hs Hp Hc n t.
  destruct Hc as [Hc|Hc]; subst cand; unfold runNarrowphase; simpl;
    rewrite Hs, Hp; simpl;
    (split; intro Ht;
     [destruct (Rlt_dec _ r) as [H|H]; [reflexivity | exfalso; apply H; exact Ht]
     |destruct (Rlt_dec _ r) as [H|H]; [exfalso; apply Ht; exact H | reflexivity]]).
Qed.

(** The sphere of [world0] lies below the plane, within its radius. *)
Lemma spherePlane_contact_witness :
  primitives objMgr (objectID (world0 0%nat)) = Sphere 1 /\
  primitives objMgr (objectID (world0 1%nat)) = Plane /\
  runNarrowphase noSAT noSATPlane world0 objMgr npState0 (mkCandidate 1%nat 0%nat) =
    npAddContacts npState0
      [{| ref := 0%nat; alt := 1%nat;
          points := [makeVector4 (vadd (position (world0 0%nat))
                        (vscale 1 (rotateVec qid baseNormal)))
                       (dot (rotateVec qid baseNormal) (position (world0 0%nat)) -
                        dot (rotateVec qid baseNormal) (position (world0 1%nat)));
                     v4zero; v4zero; v4zero];
          numPoints := 1%Z; normal := rotateVec qid baseNormal; lambdaN := 0 |}].
Proof.
  split; [reflexivity|]. split; [reflexivity|].
  apply (proj1 (spherePlane_contact noSAT noSATPlane world0 objMgr npState0 0%nat 1%nat 1
           (mkCandidate 1%nat 0%nat) eq_refl eq_refl (or_intror eq_refl))).
  vec_eval. lra.
Defined.

(** C5: for two sphere entities [a], [b] of radii [ra], [rb], with
    [to_b = b_pos - a_pos] and [dist = |to_b|]: if [0 < dist < ra + rb] the
    narrowphase appends exactly one contact, one point at the midpoint
    [a_pos + to_b/2] with depth [dist/2] and normal [to_b/dist] (and records
    a [CollisionEvent]); otherwise it changes nothing. *)
Theorem sphereSphere_contact : forall doSAT doSATPlane w obj_mgr st a b ra rb,
  primitives obj_mgr (objectID (w a)) = Sphere ra ->
  primitives obj_mgr (objectID (w b)) = Sphere rb ->
  let to_b := vsub (position (w b)) (position (w a)) in
  let dist := length to_b in
  let c := {| ref := a; alt := b;
              points := [makeVector4 (vadd (position (w a)) (vdiv to_b 2)) (dist / 2);
                         v4zero; v4zero; v4zero];
              numPoints := 1%Z; normal := vdiv to_b dist; lambdaN := 0 |} in
  (0 < dist < ra + rb ->
     runNarrowphase doSAT doSATPlane w obj_mgr st (mkCandidate a b) =
       option_map (fun st' => mkNPState (solver st') (events st' ++ [mkEvent a b]))
                  (npAddContacts st [c])) /\
  (~ (0 < dist < ra + rb) ->
     runNarrowphase doSAT doSATPlane w obj_mgr st (mkCandidate a b) = Some st).
Proof.
  intros doSAT doSATPlane w obj_mgr st a b ra rb Ha Hb to_b dist c.
  unfold runNarrowphase; simpl; rewrite Ha, Hb; simpl.
  split; intro Hd.
  - destruct (Rlt_dec 0 _) as [H1|H1]; [|exfalso; apply H1; apply Hd].
    destruct (Rlt_dec _ (ra + rb)) as [H2|H2]; [|exfalso; apply H2; apply Hd].
    destruct (npAddContacts st _); reflexivity.
  - destruct (Rlt_dec 0 _) as [H1|H1]; [|reflexivity].
    destruct (Rlt_dec _ (ra + rb)) as [H2|H2]; [|reflexivity].
    exfalso; apply Hd; split; assumption.
Qed.

(** Two unit spheres of [world0] one unit apart. *)
Lemma sphereSphere_contact_witness :
  primitives objMgr (objectID (world0 0%nat)) = Sphere 1 /\
  primitives objMgr (objectID (world0 4%nat)) = Sphere 1 /\
  0 < length (vsub (position (world0 4%nat)) (position (world0 0%nat))) < 1 + 1 /\
  runNarrowphase noSAT noSATPlane world0 objMgr npState0 (mkCandidate 0%nat 4%nat) =
    option_map (fun st' => mkNPState (solver st') (events st' ++ [mkEvent 0%nat 4%nat]))
      (npAddContacts npState0
        [{| ref := 0%nat; alt := 4%nat;
            points := [makeVector4
                         (vadd (position (world0 0%nat))
                            (vdiv (vsub (position (world0 4%nat)) (position (world0 0%nat))) 2))
                         (length (vsub (position (world0 4%nat)) (position (world0 0%nat))) / 2);
                       v4zero; v4zero; v4zero];
            numPoints := 1%Z;
            normal := vdiv (vsub (position (world0 4%nat)) (position (world0 0%nat)))
                        (length (vsub (position (world0 4%nat)) (position (world0 0%nat))));
            lambdaN := 0 |}]).
Proof.
  assert (Hd : 0 < length (vsub (position (world0 4%nat)) (position (world0 0%nat))) < 1 + 1).
  { vec_eval.
    replace ((1 - 0) * (1 - 0) + (0 - 0) * (0 - 0) + (- (1 / 2) - - (1 / 2)) * (- (1 / 2) - - (1 / 2)))
      with 1 by ring.
    rewrite sqrt_1. lra. }
  split; [reflexivity|]. split; [reflexivity|]. split; [exact Hd|].
  apply (proj1 (sphereSphere_contact noSAT noSATPlane world0 objMgr npState0 0%nat 4%nat 1 1
                  eq_refl eq_refl)).
  exact Hd.
Defined.

(** C3 (counterexample): the sphere/plane branch appends a contact whose
    stored depth [t] is negative when the sphere's centre is below the
    plane. *)
Lemma spherePlane_negative_depth_counterexample : exists st' c,
  runNarrowphase noSAT noSATPlane world0 objMgr npState0 (mkCandidate 0%nat 1%nat) = Some st' /\
  In (0%Z, c) (contacts (solver st')) /\ v4w (nth 0 (points c) v4zero) < 0.
Proof.
  destruct spherePlane_below_run as [c [Hrun [_ [_ Hw]]]].
  exists (mkNPState (withContacts solver0 [(0%Z, c)] 1) []), c.
  split; [exact Hrun|]. split; [left; reflexivity|]. rewrite Hw. lra.
Qed.

(** C7 (code bug): on the sphere/plane pair of [world0] the narrowphase
    appends a contact but makes no [CollisionEvent]; only the sphere/sphere
    branch makes one. *)
Theorem spherePlane_contact_without_event : exists st',
  runNarrowphase noSAT noSATPlane world0 objMgr npState0 (mkCandidate 0%nat 1%nat) = Some st' /\
  contacts (solver st') <> [] /\ events st' = [].
Proof.
  destruct spherePlane_below_run as [c [Hrun _]].
  eexists. split; [exact Hrun|]. split; [discriminate | reflexivity].
Qed.

(** C3 (amended): every run of the narrowphase either leaves the contact
    buffer as it was or appends one contact at index [numContacts], and
    that contact is the one its branch builds ([contactGuarantee]): at least
    one point; for two spheres the midpoint with depth [dist / 2 > 0] and
    the unit normal [to_b / dist]; for a sphere and a plane the point with
    depth [t < r] (of any sign) and the rotated plane normal, a unit vector
    when the plane's rotation is unit; for a plane and a hull, or two hulls,
    the points, count and normal of the manifold that [doSATPlane] or
    [doSAT] returns. *)
Theorem narrowphase_contact_guarantee : forall doSAT doSATPlane w obj_mgr st cand st',
  runNarrowphase doSAT doSATPlane w obj_mgr st cand = Some st' ->
  contacts (solver st') = contacts (solver st) \/
  exists c, contacts (solver st') = contacts (solver st) ++ [(numContacts (solver st), c)] /\
            contactGuarantee doSAT doSATPlane w obj_mgr c.
Proof.
  intros doSAT doSATPlane w obj_mgr st [a b] st' H.
  unfold runNarrowphase in H; simpl in H.
  destruct (primitives obj_mgr (objectID (w a))) as [ra|ma|] eqn:Pa;
  destruct (primitives obj_mgr (objectID (w b))) as [rb|mb|] eqn:Pb;
  simpl in H.
  all: repeat match type of H with
       | context [aIsReference ?m] => destruct (aIsReference m) eqn:?
       | context [Rlt_dec ?x ?y] => destruct (Rlt_dec x y)
       | context [Z.ltb ?x ?y] => destruct (Z.ltb x y) eqn:?
       | context [npAddContacts ?s ?l] =>
           let E := fresh "Hadd" in destruct (npAddContacts s l) eqn:E
       end.
  all: try discriminate.
  all: try (inversion H; subst; left; reflexivity).
  all: right; inversion H; subst; clear H.
  all: match goal with
       | E : npAddContacts _ [?c] = Some _ |- _ =>
           apply npAddContacts_single in E as [Hc _]; exists c; split; [exact Hc|]
       end.
  all: unfold contactGuarantee, manifoldContact;
       cbn [ref alt numPoints normal points nth v4w makeVector4];
       try rewrite Pa; try rewrite Pb.
  all: try match goal with E : Z.ltb _ _ = true |- _ => apply Z.ltb_lt in E end.
  all: repeat split; try lia; try lra; try assumption.
  (* hull/hull: the manifold of the meshes built in candidate order *)
  all: lazymatch goal with
       | |- exists _ _, _ =>
           exists a, b; cbn zeta; unfold hullHullMeshes; rewrite Pa;
           cbn [fst snd hullMesh];
           match goal with E : aIsReference _ = _ |- _ => rewrite E end; reflexivity
       | |- _ => idtac
       end.
  - apply length_vdiv_length; assumption.
  - apply length_rotate_baseNormal.
  - apply length_rotate_baseNormal.
Qed.

(** A sphere/plane run of [world0] checked against the guarantee. *)
Lemma narrowphase_contact_guarantee_witness : exists st',
  runNarrowphase noSAT noSATPlane world0 objMgr npState0 (mkCandidate 0%nat 1%nat) = Some st' /\
  (contacts (solver st') = contacts (solver npState0) \/
   exists c, contacts (solver st') =
               contacts (solver npState0) ++ [(numContacts (solver npState0), c)] /\
             contactGuarantee noSAT noSATPlane world0 objMgr c).
Proof.
  destruct spherePlane_below_run as [c [Hrun _]].
  eexists. split; [exact Hrun|].
  exact (narrowphase_contact_guarantee noSAT noSATPlane world0 objMgr npState0
           (mkCandidate 0%nat 1%nat) _ Hrun).
Defined.

(** C1 (code bug): in the hull/hull branch both collision meshes are built
    from hull A's half-edge mesh; hull B's mesh is placed with B's scale,
    rotation and position but its vertices are A's. *)
Theorem hullHull_both_meshes_from_a : forall doSAT doSATPlane w obj_mgr st a b ma mb,
  primitives obj_mgr (objectID (w a)) = Hull ma ->
  primitives obj_mgr (objectID (w b)) = Hull mb ->
  runNarrowphase doSAT doSATPlane w obj_mgr st (mkCandidate a b) =
    let m := doSAT (buildCollisionMesh w ma a (position (w a)))
                   (buildCollisionMesh w ma b (position (w b))) in
    if Z.ltb 0 (numContactPoints m)
    then npAddContacts st [if aIsReference m then manifoldContact a b m
                           else manifoldContact b a m]
    else Some st.
Proof.
  intros doSAT doSATPlane w obj_mgr st a b ma mb Ha Hb.
  unfold runNarrowphase; simpl; rewrite Ha, Hb; reflexivity.
Qed.

(** Hulls 2 and 3 of [world0] have different meshes ([meshA] has the
    vertex [(0,0,0)], [meshB] the vertex [(1,0,0)]); hull 3 sits at
    [(3,0,0)]. The vertex the SAT routine receives for hull 3 is [(3,0,0)],
    the image of hull A's vertex, not [(4,0,0)], that of its own. *)
Lemma hullHull_both_meshes_from_a_witness :
  primitives objMgr (objectID (world0 2%nat)) = Hull meshA /\
  primitives objMgr (objectID (world0 3%nat)) = Hull meshB /\
  exists c,
    runNarrowphase probeSAT noSATPlane world0 objMgr npState0 (mkCandidate 2%nat 3%nat) =
      Some (mkNPState (withContacts solver0 [(0%Z, c)] 1) []) /\
    xyz (nth 0 (points c) v4zero) = mkV3 3 0 0 /\
    transformVertex world0 (vertex meshB 0) 3%nat = mkV3 4 0 0.
Proof.
  split; [reflexivity|]. split; [reflexivity|].
  rewrite (hullHull_both_meshes_from_a probeSAT noSATPlane world0 objMgr npState0
             2%nat 3%nat meshA meshB eq_refl eq_refl).
  eexists. split; [reflexivity|].
  unfold transformVertex, vertex, meshA, meshB, xyz, manifoldContact; simpl.
  vec_eval. split; f_equal; ring.
Defined.

(** ** Further properties of the physics core *)

(** *** Swept AABB *)

Lemma rotatedExtent_ordered : forall m obj i js lo hi,
  lo <= hi ->
  fst (rotatedExtent m obj i js lo hi) <= snd (rotatedExtent m obj i js lo hi).
Proof.
  intros m obj i js. induction js as [|j rest IH]; intros lo hi Hle; simpl; [exact Hle|].
  destruct (Rlt_dec _ _) as [H|H]; apply IH; lra.
Qed.

Lemma expandAxis_widens : forall dt v lo hi,
  fst (expandAxis dt v lo hi) <= lo /\ hi <= snd (expandAxis dt v lo hi).
Proof.
  intros. unfold expandAxis. cbv zeta.
  destruct (Rlt_dec _ 0); destruct (Rgt_dec _ 0); simpl; lra.
Qed.

Lemma worldAxis_ordered : forall fromQuat dt pos rot obj vel i,
  fst (worldAxis fromQuat dt pos rot obj vel i) <= snd (worldAxis fromQuat dt pos rot obj vel i).
Proof.
  intros. unfold worldAxis.
  pose proof (rotatedExtent_ordered (fromQuat rot) obj i [0; 1; 2]%nat (vget pos i) (vget pos i)
                (Rle_refl _)) as Hr.
  destruct (rotatedExtent _ _ _ _ _ _) as [lo hi]. simpl in Hr.
  pose proof (expandAxis_widens dt (vget (linear vel) i) lo hi). lra.
Qed.

(** The box [updateCollisionAABB] writes is never inverted: on every axis
    [pMin <= pMax], whatever the object box, rotation and velocity. *)
Theorem updateCollisionAABB_ordered : forall fromQuat delta_t pos rot obj_aabb vel,
  let out := updateCollisionAABB fromQuat delta_t pos rot obj_aabb vel in
  vx (pMin out) <= vx (pMax out) /\ vy (pMin out) <= vy (pMax out) /\
  vz (pMin out) <= vz (pMax out).
Proof.
  intros. unfold out, updateCollisionAABB; simpl.
  repeat split; apply worldAxis_ordered.
Qed.

Lemma rotatedExtent_contains : forall m obj i p js lo hi y,
  (forall j, In j js -> vget (pMin obj) j <= vget p j <= vget (pMax obj) j) ->
  lo <= y <= hi ->
  fst (rotatedExtent m obj i js lo hi) <= y + rowDot m i js p <=
  snd (rotatedExtent m obj i js lo hi).
Proof.
  intros m obj i p js. induction js as [|j rest IH]; intros lo hi y Hp Hy; simpl.
  - lra.
  - assert (Hj : vget (pMin obj) j <= vget p j <= vget (pMax obj) j) by (apply Hp; left; auto).
    assert (Hprod : (m i j * vget p j - m i j * vget (pMin obj) j) *
                    (m i j * vget p j - m i j * vget (pMax obj) j) <= 0).
    { replace ((m i j * vget p j - m i j * vget (pMin obj) j) *
               (m i j * vget p j - m i j * vget (pMax obj) j))
        with ((m i j * m i j) * ((vget p j - vget (pMin obj) j) * (vget p j - vget (pMax obj) j)))
        by ring.
      assert (0 <= m i j * m i j) by nra.
      assert ((vget p j - vget (pMin obj) j) * (vget p j - vget (pMax obj) j) <= 0) by nra.
      nra. }
    assert (Hrest : forall j', In j' rest ->
              vget (pMin obj) j' <= vget p j' <= vget (pMax obj) j')
      by (intros; apply Hp; right; auto).
    destruct (Rlt_dec _ _) as [H|H].
    + assert (m i j * vget (pMin obj) j <= m i j * vget p j <= m i j * vget (pMax obj) j) by nra.
      specialize (IH (lo + m i j * vget (pMin obj) j) (hi + m i j * vget (pMax obj) j)
                     (y + m i j * vget p j) Hrest ltac:(lra)).
      lra.
    + assert (m i j * vget (pMax obj) j <= m i j * vget p j <= m i j * vget (pMin obj) j) by nra.
      specialize (IH (lo + m i j * vget (pMax obj) j) (hi + m i j * vget (pMin obj) j)
                     (y + m i j * vget p j) Hrest ltac:(lra)).
      lra.
Qed.

Lemma expandAxis_contains : forall dt v lo hi y lam s,
  lo <= y <= hi -> 0 <= lam <= 1 -> Rabs s <= 100 * dt * dt ->
  fst (expandAxis dt v lo hi) <= y + lam * (2 * v * dt + s) <= snd (expandAxis dt v lo hi).
Proof.
  intros dt v lo hi y lam s Hy Hl Hs.
  assert (Hs2 : - (100 * dt * dt) <= s <= 100 * dt * dt)
    by (unfold Rabs in Hs; destruct (Rcase_abs s); lra).
  clear Hs.
  unfold expandAxis. cbv zeta.
  destruct (Rlt_dec _ 0); destruct (Rgt_dec _ 0); simpl; split; nra.
Qed.

(** The box covers the swept body: every point [p] of the object box, placed
    by [rot_mat = fromQuat(rot)] at [pos] and then displaced by any fraction
    [lam] of [2 * v * deltaT + s] with [|s| <= 100 * deltaT^2], lies inside
    the box on each axis. *)
Theorem updateCollisionAABB_contains_swept : forall fromQuat delta_t pos rot obj_aabb vel
    p lam s i,
  (forall j, (j < 3)%nat -> vget (pMin obj_aabb) j <= vget p j <= vget (pMax obj_aabb) j) ->
  0 <= lam <= 1 -> Rabs s <= 100 * delta_t * delta_t -> (i < 3)%nat ->
  let out := updateCollisionAABB fromQuat delta_t pos rot obj_aabb vel in
  let x := vget pos i + rowDot (fromQuat rot) i [0; 1; 2]%nat p +
           lam * (2 * vget (linear vel) i * delta_t + s) in
  vget (pMin out) i <= x <= vget (pMax out) i.
Proof.
  intros fromQuat delta_t pos rot obj_aabb vel p lam s i Hp Hl Hs Hi out x.
  assert (Hax : vget (pMin out) i = fst (worldAxis fromQuat delta_t pos rot obj_aabb vel i) /\
                vget (pMax out) i = snd (worldAxis fromQuat delta_t pos rot obj_aabb vel i)).
  { unfold out, updateCollisionAABB.
    destruct i as [|[|[|k]]]; simpl; try (split; reflexivity). lia. }
  destruct Hax as [-> ->]. unfold x, worldAxis.
  assert (Hin : forall j, In j [0; 1; 2]%nat ->
                vget (pMin obj_aabb) j <= vget p j <= vget (pMax obj_aabb) j).
  { intros j Hj. apply Hp. simpl in Hj. lia. }
  pose proof (rotatedExtent_contains (fromQuat rot) obj_aabb i p [0; 1; 2]%nat
                (vget pos i) (vget pos i) (vget pos i) Hin
                (conj (Rle_refl _) (Rle_refl _))) as Hr.
  destruct (rotatedExtent _ _ _ _ _ _) as [lo hi].
  simpl in Hr.
  apply expandAxis_contains; [exact Hr | exact Hl | exact Hs].
Qed.

(** *** Solver loops *)

Lemma setBody_other : forall w e b e', e' <> e -> setBody w e b e' = w e'.
Proof.
  intros. unfold setBody. destruct (Nat.eqb e' e) eqn:E; [|reflexivity].
  apply Nat.eqb_eq in E. contradiction.
Qed.

Lemma updateVelocityFromContact_pose : forall w obj_mgr c hh thr e,
  position (updateVelocityFromContact w obj_mgr c hh thr e) = position (w e) /\
  rotation (updateVelocityFromContact w obj_mgr c hh thr e) = rotation (w e) /\
  objectID (updateVelocityFromContact w obj_mgr c hh thr e) = objectID (w e).
Proof.
  intros. unfold updateVelocityFromContact. cbv zeta.
  generalize (velocityPoints [0; 1; 2; 3]%nat (rotation (w (ref c))) (rotation (w (alt c)))
           (startState (w (ref c))) (startState (w (alt c)))
           (velState (w (ref c))) (velState (w (alt c)))
           (metadata obj_mgr (objectID (w (ref c))))
           (metadata obj_mgr (objectID (w (alt c)))) c
           (1 / 2 * (muD (metadata obj_mgr (objectID (w (ref c)))) +
                     muD (metadata obj_mgr (objectID (w (alt c))))) * Rabs (lambdaN c) / hh)
           thr
           (mkVelPair (linear (velocity (w (ref c)))) (linear (velocity (w (alt c))))
              (angular (velocity (w (ref c)))) (angular (velocity (w (alt c)))))).
  intros vs. unfold setBody.
  destruct (Nat.eqb e (alt c)) eqn:Ea; [apply Nat.eqb_eq in Ea; subst e|].
  - destruct (Nat.eqb (alt c) (ref c)) eqn:Er; simpl.
    + apply Nat.eqb_eq in Er. rewrite Er. auto.
    + auto.
  - destruct (Nat.eqb e (ref c)) eqn:Er; [apply Nat.eqb_eq in Er; subst e|]; simpl; auto.
Qed.

(** [solveVelocities] only writes velocities: every body keeps its position
    and rotation, the contact buffer is not written, and [numContacts] is
    reset to [0] for the next substep. *)
Theorem solveVelocities_frame : forall mem0 obj_mgr w sd e,
  let '(w', sd') := solveVelocities mem0 obj_mgr w sd in
  position (w' e) = position (w e) /\ rotation (w' e) = rotation (w e) /\
  contacts sd' = contacts sd /\ numContacts sd' = 0%Z /\
  maxContacts sd' = maxContacts sd.
Proof.
  intros. unfold solveVelocities.
  split; [|split; [|split; [reflexivity|split; reflexivity]]];
  generalize (contactIndices sd) as is; intros is;
  generalize w; induction is as [|i rest IH]; intros w0; simpl; auto;
  rewrite IH; apply updateVelocityFromContact_pose.
Qed.

Lemma handleContact_frame : forall w obj_mgr c e,
  velocity (fst (handleContact w obj_mgr c) e) = velocity (w e) /\
  objectID (fst (handleContact w obj_mgr c) e) = objectID (w e).
Proof.
  intros. unfold handleContact.
  destruct (handleContactPoints _ _ _ _ _ _ _ _ _ _ _) as [[ps ln] lt]. simpl.
  unfold setRotation, setPosition, setBody.
  repeat match goal with
  | |- context [Nat.eqb ?a ?b] =>
      let E := fresh "E" in
      destruct (Nat.eqb a b) eqn:E; [apply Nat.eqb_eq in E; try rewrite E|]
  end; simpl; auto.
Qed.

Lemma handleContact_static_position : forall w obj_mgr c e,
  invMass (metadata obj_mgr (objectID (w e))) = 0 ->
  position (fst (handleContact w obj_mgr c) e) = position (w e).
Proof.
  intros w obj_mgr c e Hm. unfold handleContact.
  match goal with
  | |- context [handleContactPoints ?is c ?s1 ?s2 ?p1 ?p2 ?m1 ?m2 ?ps ?l1 ?l2] =>
      pose proof (handleContactPoints_static is c s1 s2 p1 p2 m1 m2 ps l1 l2) as [Ha Hb];
      destruct (handleContactPoints is c s1 s2 p1 p2 m1 m2 ps l1 l2) as [[ps' ln] lt]
  end.
  simpl in Ha, Hb |- *.
  rewrite !position_setRotation, !position_setPosition.
  destruct (Nat.eqb e (alt c)) eqn:Ea.
  - apply Nat.eqb_eq in Ea. subst e. apply Hb. exact Hm.
  - destruct (Nat.eqb e (ref c)) eqn:Er; [|reflexivity].
    apply Nat.eqb_eq in Er. subst e. apply Ha. exact Hm.
Qed.

Lemma solvePositions_fold_frame : forall mem0 obj_mgr is w sd e,
  let acc := fold_left (solvePositionsStep mem0 obj_mgr) is (w, sd) in
  velocity (fst acc e) = velocity (w e) /\ objectID (fst acc e) = objectID (w e) /\
  numContacts (snd acc) = numContacts sd /\ maxContacts (snd acc) = maxContacts sd /\
  (invMass (metadata obj_mgr (objectID (w e))) = 0 -> position (fst acc e) = position (w e)).
Proof.
  intros mem0 obj_mgr is. induction is as [|i rest IH]; intros w sd e; simpl.
  - repeat split; auto.
  - unfold solvePositionsStep at 2.
    pose proof (handleContact_frame w obj_mgr (readContactFrom mem0 (contacts sd) i) e) as [Hv Ho].
    pose proof (handleContact_static_position w obj_mgr (readContactFrom mem0 (contacts sd) i) e)
      as Hp.
    destruct (handleContact w obj_mgr (readContactFrom mem0 (contacts sd) i)) as [w1 ln].
    simpl in Hv, Ho, Hp.
    destruct (IH w1 (withContacts sd (contacts sd ++
                 [(i, withLambdaN (readContactFrom mem0 (contacts sd) i) ln)]) (numContacts sd)) e)
      as (Hv' & Ho' & Hn' & Hm' & Hp').
    repeat split.
    + etransitivity; [exact Hv' | exact Hv].
    + etransitivity; [exact Ho' | exact Ho].
    + exact Hn'.
    + exact Hm'.
    + intros Hs. etransitivity; [apply Hp'; rewrite Ho; exact Hs | apply Hp; exact Hs].
Qed.

(** [solvePositions] only moves bodies: every body keeps its velocity and
    its object, and the contact count and capacity are unchanged. *)
Theorem solvePositions_frame : forall mem0 obj_mgr w sd e,
  let '(w', sd') := solvePositions mem0 obj_mgr w sd in
  velocity (w' e) = velocity (w e) /\ objectID (w' e) = objectID (w e) /\
  numContacts sd' = numContacts sd /\ maxContacts sd' = maxContacts sd.
Proof.
  intros. unfold solvePositions.
  pose proof (solvePositions_fold_frame mem0 obj_mgr (contactIndices sd) w sd e) as H.
  cbv zeta in H.
  destruct (fold_left _ _ _) as [w' sd']. simpl in H. tauto.
Qed.

(** A body whose object has [invMass = 0] ends [solvePositions] where it
    started, however many contacts it takes part in, when every contact of
    the buffer is solvable and every rotation is a unit quaternion: then the
    float code never divides by zero ([positional_divisor_pos]) and writes
    no [NaN] that could reach the body. *)
Theorem solvePositions_static_body : forall mem0 obj_mgr w sd e,
  invMass (metadata obj_mgr (objectID (w e))) = 0 ->
  (forall i, In i (contactIndices sd) ->
     solvableContact w obj_mgr (readContactFrom mem0 (contacts sd) i)) ->
  (forall x, unitQuat (rotation (w x))) ->
  position (fst (solvePositions mem0 obj_mgr w sd) e) = position (w e).
Proof.
  intros mem0 obj_mgr w sd e Hm _ _. unfold solvePositions.
  apply (solvePositions_fold_frame mem0 obj_mgr (contactIndices sd) w sd e). exact Hm.
Qed.

(** The static plane of [world0] under the active resting contact. *)
Lemma solvePositions_static_body_witness :
  invMass (metadata objMgr (objectID (world0 1%nat))) = 0 /\
  0 < contactDepth world0 restingContact 0 /\
  position (fst (solvePositions (fun _ => restingContact) objMgr world0
                   (withContacts solver0 [(0%Z, restingContact)] 1)) 1%nat) =
    position (world0 1%nat).
Proof.
  split; [reflexivity|]. split; [exact restingContact_active|].
  apply (solvePositions_static_body (fun _ => restingContact) objMgr world0
           (withContacts solver0 [(0%Z, restingContact)] 1) 1%nat).
  - reflexivity.
  - exact restingContact_indices.
  - exact world0_unit.
Defined.

Lemma readContactFrom_snoc : forall mem0 log i c j,
  readContactFrom mem0 (log ++ [(i, c)]) j =
    if Z.eqb i j then c else readContactFrom mem0 log j.
Proof. intros. unfold readContactFrom. rewrite fold_left_app. reflexivity. Qed.

Lemma solvePositions_fold_contacts : forall mem0 obj_mgr is w sd,
  NoDup is ->
  forall j, exists l,
    readContactFrom mem0
      (contacts (snd (fold_left (solvePositionsStep mem0 obj_mgr) is (w, sd)))) j =
    if existsb (Z.eqb j) is then withLambdaN (readContactFrom mem0 (contacts sd) j) l
    else readContactFrom mem0 (contacts sd) j.
Proof.
  intros mem0 obj_mgr is. induction is as [|i rest IH]; intros w sd Hnd j; simpl.
  - exists 0. reflexivity.
  - inversion Hnd as [|? ? Hni Hnd']; subst.
    destruct (handleContact w obj_mgr (readContactFrom mem0 (contacts sd) i)) as [w1 ln] eqn:Hc.
    destruct (IH w1 (withContacts sd (contacts sd ++
                 [(i, withLambdaN (readContactFrom mem0 (contacts sd) i) ln)]) (numContacts sd))
                Hnd' j) as [l Hl].
    rewrite Hl. simpl. rewrite readContactFrom_snoc.
    destruct (Z.eqb j i) eqn:Eji.
    + apply Z.eqb_eq in Eji. subst j. rewrite Z.eqb_refl. simpl.
      assert (Hr : existsb (Z.eqb i) rest = false).
      { apply Bool.not_true_iff_false. intro Hex. apply existsb_exists in Hex.
        destruct Hex as [k [Hk Hk']]. apply Z.eqb_eq in Hk'. subst k. contradiction. }
      rewrite Hr. exists ln. reflexivity.
    + simpl. rewrite Z.eqb_sym, Eji. exists l. reflexivity.
Qed.

(** [solvePositions] writes back only [lambdaN]: afterwards every contact
    [j] with [0 <= j < numContacts] is the contact read before the loop with
    a new [lambdaN] (each iteration reads its own index, which no earlier
    iteration wrote), and every other entry of the buffer is untouched. *)
Theorem solvePositions_contacts : forall mem0 obj_mgr w sd j,
  exists l,
    readContactFrom mem0 (contacts (snd (solvePositions mem0 obj_mgr w sd))) j =
    if (0 <=? j)%Z && (j <? numContacts sd)%Z
    then withLambdaN (readContactFrom mem0 (contacts sd) j) l
    else readContactFrom mem0 (contacts sd) j.
Proof.
  intros. unfold solvePositions.
  destruct (solvePositions_fold_contacts mem0 obj_mgr (contactIndices sd) w sd) with (j := j)
    as [l Hl].
  - unfold contactIndices. apply NoDup_map_NoDup_ForallPairs; [|apply seq_NoDup].
    intros a b _ _ Hab. lia.
  - exists l. rewrite Hl. f_equal.
    assert (Hiff : existsb (Z.eqb j) (contactIndices sd) = true <->
                   ((0 <=? j)%Z && (j <? numContacts sd)%Z) = true).
    { rewrite existsb_exists, Bool.andb_true_iff, Z.leb_le, Z.ltb_lt.
      unfold contactIndices. split.
      - intros [k [Hk Hjk]]. apply Z.eqb_eq in Hjk. subst k.
        apply in_map_iff in Hk. destruct Hk as [n [Hn Hin]]. apply in_seq in Hin. lia.
      - intros [H0 H1]. exists j. split; [|apply Z.eqb_refl].
        apply in_map_iff. exists (Z.to_nat j). split; [lia|]. apply in_seq. lia. }
    destruct (existsb _ _), ((0 <=? j)%Z && (j <? numContacts sd)%Z); try reflexivity;
      destruct Hiff as [Ha Hb]; [discriminate (Ha eq_refl) | discriminate (Hb eq_refl)].
Qed.

(** *** Task graph *)

Lemma addSubstep_eq : forall b cur,
  addSubstep b cur =
    (b ++ [(SubstepRigidBodies, [cur]); (RunNarrowphase, [List.length b]);
           (SolvePositions, [List.length b + 1]); (SetVelocities, [List.length b + 2]);
           (SolveVelocities, [List.length b + 3]); (ResetTmpAlloc, [List.length b + 4])]%nat,
     (List.length b + 5)%nat).
Proof.
  intros. unfold addSubstep, addToGraph. rewrite <- !app_assoc. simpl.
  rewrite !length_app. simpl. repeat (f_equal; try lia).
Qed.

Lemma chainedFrom_app : forall lo (b ext : Builder),
  chainedFrom lo b ->
  (forall k, (List.length b <= k < List.length b + List.length ext)%nat ->
     exists node, nth_error ext (k - List.length b) = Some (node, [k - 1]%nat)) ->
  chainedFrom lo (b ++ ext).
Proof.
  intros lo b ext Hb Hext k Hk. rewrite length_app in Hk.
  destruct (Nat.lt_ge_cases k (List.length b)) as [Hlt|Hge].
  - rewrite nth_error_app1 by lia. apply Hb. lia.
  - rewrite nth_error_app2 by lia. apply Hext. lia.
Qed.

Lemma addSubsteps_shape : forall n b lo,
  (1 <= List.length b)%nat -> chainedFrom lo b ->
  let '(b', cur) := addSubsteps n b (List.length b - 1)%nat in
  List.length b' = (List.length b + 6 * n)%nat /\
  cur = (List.length b' - 1)%nat /\
  firstn (List.length b) b' = b /\
  map fst (skipn (List.length b) b') = concat (repeat substepKinds n) /\
  chainedFrom lo b'.
Proof.
  induction n as [|n IH]; intros b lo H1 Hch; cbn [addSubsteps].
  - rewrite firstn_all, skipn_all. repeat split; auto; lia.
  - rewrite addSubstep_eq.
    set (b1 := b ++ _).
    assert (Hl1 : List.length b1 = (List.length b + 6)%nat)
      by (unfold b1; rewrite length_app; reflexivity).
    assert (Hch1 : chainedFrom lo b1).
    { apply chainedFrom_app; [exact Hch|]. simpl. intros k Hk.
      assert (Hc : (k - List.length b = 0 \/ k - List.length b = 1 \/ k - List.length b = 2 \/
                    k - List.length b = 3 \/ k - List.length b = 4 \/ k - List.length b = 5)%nat)
        by lia.
      destruct Hc as [Hc|[Hc|[Hc|[Hc|[Hc|Hc]]]]]; rewrite Hc; simpl; eexists;
        (apply f_equal; apply f_equal2; [reflexivity | apply f_equal2; [lia | reflexivity]]). }
    replace (List.length b + 5)%nat with (List.length b1 - 1)%nat by lia.
    pose proof (IH b1 lo ltac:(lia) Hch1) as IHb.
    destruct (addSubsteps n b1 (List.length b1 - 1)%nat) as [b' cur].
    destruct IHb as (Hl & Hcur & Hfirst & Hkinds & Hch').
    assert (Hpre : b' = b1 ++ skipn (List.length b1) b')
      by (rewrite <- Hfirst at 1; symmetry; apply firstn_skipn).
    repeat split; auto.
    + lia.
    + rewrite Hpre. unfold b1 at 1.
      rewrite <- app_assoc, firstn_app, firstn_all, Nat.sub_diag.
      simpl. apply app_nil_r.
    + rewrite Hpre. unfold b1 at 1.
      rewrite <- app_assoc, skipn_app, skipn_all, Nat.sub_diag.
      simpl. rewrite Hkinds. reflexivity.
Qed.

(** [setupTasks] builds one serial chain: from an empty builder it adds
    [5 + 6 * num_substeps] nodes, the BVH nodes, then six nodes per substep
    in the order [substepRigidBodies, narrowphase, solvePositions,
    setVelocities, solveVelocities, resetTmpAlloc], then the candidate clear;
    the first node waits on the caller's [deps], every other node on exactly
    the node before it, and the returned node is the last one. *)
Theorem setupTasks_serial_chain : forall deps num_substeps,
  let '(b, last) := setupTasks [] deps num_substeps in
  List.length b = (5 + 6 * num_substeps)%nat /\
  last = (List.length b - 1)%nat /\
  map fst b = [UpdateAABBs; PreprocessLeaves; BVHUpdate; FindOverlapping] ++
              concat (repeat substepKinds num_substeps) ++ [ClearCandidates] /\
  nth_error b 0 = Some (UpdateAABBs, deps) /\
  chainedFrom 1 b.
Proof.
  intros deps n. unfold setupTasks, addToGraph. simpl.
  match goal with
  | |- context [addSubsteps n ?b0 ?c] =>
      assert (Hch : chainedFrom 1 b0)
        by (intros k Hk; simpl in Hk;
            destruct k as [|[|[|[|k]]]]; try lia; simpl; eexists; reflexivity);
      pose proof (addSubsteps_shape n b0 1 ltac:(simpl; lia) Hch) as Hs;
      change (List.length b0 - 1)%nat with c in Hs;
      destruct (addSubsteps n b0 c) as [b' cur];
      destruct Hs as (Hl & Hcur & Hfirst & Hkinds & Hch');
      assert (Hpre : b' = b0 ++ skipn (List.length b0) b')
        by (rewrite <- Hfirst at 1; symmetry; apply firstn_skipn)
  end.
  simpl in Hl, Hpre, Hkinds.
  repeat split.
  - rewrite length_app, Hl. simpl. lia.
  - rewrite length_app. simpl. lia.
  - rewrite map_app. rewrite Hpre at 1. simpl. rewrite Hkinds. reflexivity.
  - rewrite Hpre. reflexivity.
  - apply chainedFrom_app; [exact Hch'|]. simpl. intros k Hk.
    replace (k - List.length b')%nat with 0%nat by lia. simpl.
    eexists. apply f_equal, f_equal2; [reflexivity|]. apply f_equal2; [lia|reflexivity].
Qed.

(** *** Positional and velocity updates *)

(** Without rotational inertia the generalized inverse mass is the inverse mass. *)
Lemma generalizedInverseMass_zero_inertia : forall r m n,
  generalizedInverseMass r m vzero n = m.
Proof. intros. unfold generalizedInverseMass, multDiag, dot, vzero; simpl. ring. Qed.

(** A positional update moves the two bodies by opposite impulses, so it
    keeps [x1 / invMass1 + x2 / invMass2] (the mass-weighted centre, up to
    the total mass) where it was, whichever direction and magnitude it
    applies and whether or not [lambda_check] stops it. *)
Theorem applyPositionalUpdate_conserves_centre : forall ps r1 r2 m1 m2 I1 I2 nw n1 n2 c a l chk,
  m1 <> 0 -> m2 <> 0 ->
  let ps' := fst (applyPositionalUpdate ps r1 r2 m1 m2 I1 I2 nw n1 n2 c a l chk) in
  vadd (vscale (/ m1) (x1 ps')) (vscale (/ m2) (x2 ps')) =
  vadd (vscale (/ m1) (x1 ps)) (vscale (/ m2) (x2 ps)).
Proof.
  intros ps r1 r2 m1 m2 I1 I2 nw n1 n2 c a l chk H1 H2 ps'. unfold ps', applyPositionalUpdate.
  cbv zeta.
  remember ((- c - a * l) / (generalizedInverseMass r1 m1 I1 n1 +
                             generalizedInverseMass r2 m2 I2 n2 + a)) as dl.
  destruct (chk _); [reflexivity|]. simpl.
  destruct (x1 ps) as [a1 b1 c1], (x2 ps) as [a2 b2 c2], nw as [a3 b3 c3].
  unfold vadd, vsub, vscale, vmuls; simpl. f_equal; field; auto.
Qed.

Lemma applyPositionalUpdate_conserves_centre_witness :
  (1 <> 0 /\ 2 <> 0) /\
  let ps := mkPoses (mkV3 0 0 1) vzero qid qid in
  let ps' := fst (applyPositionalUpdate ps vzero vzero 1 2 vzero vzero baseNormal
                    baseNormal baseNormal 1 0 0 neverCheck) in
  vadd (vscale (/ 1) (x1 ps')) (vscale (/ 2) (x2 ps')) =
  vadd (vscale (/ 1) (x1 ps)) (vscale (/ 2) (x2 ps)).
Proof.
  split; [split; lra|].
  exact (applyPositionalUpdate_conserves_centre (mkPoses (mkV3 0 0 1) vzero qid qid)
           vzero vzero 1 2 vzero vzero baseNormal baseNormal baseNormal 1 0 0 neverCheck
           ltac:(lra) ltac:(lra)).
Defined.

(** A velocity update applies opposite impulses to the two bodies, so it
    conserves linear momentum [v1 / invMass1 + v2 / invMass2]. *)
Theorem applyVelocityUpdate_conserves_momentum : forall vs r1 r2 m1 m2 I1 I2 dw d1 d2 mag,
  m1 <> 0 -> m2 <> 0 ->
  let vs' := applyVelocityUpdate vs r1 r2 m1 m2 I1 I2 dw d1 d2 mag in
  vadd (vscale (/ m1) (v1 vs')) (vscale (/ m2) (v2 vs')) =
  vadd (vscale (/ m1) (v1 vs)) (vscale (/ m2) (v2 vs)).
Proof.
  intros vs r1 r2 m1 m2 I1 I2 dw d1 d2 mag H1 H2 vs'. unfold vs', applyVelocityUpdate.
  cbv zeta.
  remember (mag * (1 / (generalizedInverseMass r1 m1 I1 d1 +
                        generalizedInverseMass r2 m2 I2 d2))) as dm.
  simpl.
  destruct (v1 vs) as [a1 b1 c1], (v2 vs) as [a2 b2 c2], dw as [a3 b3 c3].
  unfold vadd, vsub, vscale, vmuls; simpl. f_equal; field; auto.
Qed.

Lemma applyVelocityUpdate_conserves_momentum_witness :
  (1 <> 0 /\ 2 <> 0) /\
  let vs := mkVelPair (mkV3 0 0 (-1)) vzero vzero vzero in
  let vs' := applyVelocityUpdate vs vzero vzero 1 2 vzero vzero baseNormal
               baseNormal baseNormal 1 in
  vadd (vscale (/ 1) (v1 vs')) (vscale (/ 2) (v2 vs')) =
  vadd (vscale (/ 1) (v1 vs)) (vscale (/ 2) (v2 vs)).
Proof.
  split; [split; lra|].
  exact (applyVelocityUpdate_conserves_momentum (mkVelPair (mkV3 0 0 (-1)) vzero vzero vzero)
           vzero vzero 1 2 vzero vzero baseNormal baseNormal baseNormal 1
           ltac:(lra) ltac:(lra)).
Defined.

(** With a nonnegative diagonal inverse inertia tensor the generalized
    inverse mass is never below the body's inverse mass: the rotational term
    [(r x n)^T invI (r x n)] only adds. *)
Theorem generalizedInverseMass_ge_invMass : forall local inv_m inv_I n,
  0 <= vx inv_I -> 0 <= vy inv_I -> 0 <= vz inv_I ->
  inv_m <= generalizedInverseMass local inv_m inv_I n.
Proof.
  intros local inv_m [a b c] n Ha Hb Hc. simpl in *.
  unfold generalizedInverseMass, multDiag, dot. cbv zeta. cbn [vx vy vz].
  destruct (cross local n) as [x y z]. cbn [vx vy vz].
  assert (0 <= a * (x * x)) by (apply Rmult_le_pos; [lra | apply Rle_0_sqr]).
  assert (0 <= b * (y * y)) by (apply Rmult_le_pos; [lra | apply Rle_0_sqr]).
  assert (0 <= c * (z * z)) by (apply Rmult_le_pos; [lra | apply Rle_0_sqr]).
  nra.
Qed.

Lemma generalizedInverseMass_ge_invMass_witness :
  (0 <= vx vone /\ 0 <= vy vone /\ 0 <= vz vone) /\
  1 <= generalizedInverseMass (mkV3 1 0 0) 1 vone baseNormal.
Proof.
  split; [unfold vone; simpl; lra|].
  apply generalizedInverseMass_ge_invMass; unfold vone; simpl; lra.
Defined.

(** *** Point masses: what one contact iteration achieves *)

Lemma qrot_zero_inertia : forall q x,
  unitQuat q ->
  normalize (qadd q (qmul (fromAngularVec (vscale (1 / 2) (multDiag vzero x))) q)) = q /\
  normalize (qsub q (qmul (fromAngularVec (vscale (1 / 2) (multDiag vzero x))) q)) = q.
Proof.
  intros q x Hu.
  assert (Ha : qadd q (qmul (fromAngularVec (vscale (1 / 2) (multDiag vzero x))) q) = q)
    by (destruct q; unfold qadd, qmul, fromAngularVec, vscale, multDiag, vzero; simpl;
        f_equal; ring).
  assert (Hs : qsub q (qmul (fromAngularVec (vscale (1 / 2) (multDiag vzero x))) q) = q)
    by (destruct q; unfold qsub, qmul, fromAngularVec, vscale, multDiag, vzero; simpl;
        f_equal; ring).
  rewrite Ha, Hs. split; apply normalize_unit; exact Hu.
Qed.

Lemma applyPositionalUpdate_point_mass : forall ps r1 r2 m1 m2 nw n1 n2 c a l chk k,
  unitQuat (q1 ps) -> unitQuat (q2 ps) ->
  let dl := (- c - a * l) / (m1 + m2 + a) in
  let ps' := fst (applyPositionalUpdate ps r1 r2 m1 m2 vzero vzero nw n1 n2 c a l chk) in
  q1 ps' = q1 ps /\ q2 ps' = q2 ps /\
  constraintValue ps' r1 r2 k =
    constraintValue ps r1 r2 k + (if chk (l + dl) then 0 else dl * (m1 + m2) * dot nw k).
Proof.
  intros ps r1 r2 m1 m2 nw n1 n2 c a l chk k H1 H2 dl ps'.
  unfold ps', applyPositionalUpdate. cbv zeta.
  rewrite !generalizedInverseMass_zero_inertia. fold dl.
  destruct (chk (l + dl)); simpl; [repeat split; ring|].
  destruct (qrot_zero_inertia (q1 ps) (cross r1 (vscale dl n1)) H1) as [-> _].
  destruct (qrot_zero_inertia (q2 ps) (cross r2 (vscale dl n2)) H2) as [_ ->].
  repeat split. unfold constraintValue. simpl.
  destruct (rotateVec (q1 ps) r1) as [a1 b1 c1], (rotateVec (q2 ps) r2) as [a2 b2 c2],
           (x1 ps) as [a3 b3 c3], (x2 ps) as [a4 b4 c4], nw as [a5 b5 c5], k as [a6 b6 c6].
  unfold dot, vsub, vadd, vmuls, vscale; simpl. ring.
Qed.

(** The tangential direction of [handleContactConstraint] is orthogonal to
    a unit normal. *)
Lemma dot_tangent_normal : forall dp n s,
  dot n n = 1 -> dot (vdiv (vsub dp (vscale (dot dp n) n)) s) n = 0.
Proof.
  intros [a b c] [x y z] s Hn. unfold dot, vdiv, vsub, vscale in *; simpl in *.
  replace ((a - (a * x + b * y + c * z) * x) / s * x + (b - (a * x + b * y + c * z) * y) / s * y +
           (c - (a * x + b * y + c * z) * z) / s * z)
    with (/ s * ((a * x + b * y + c * z) * (1 - (x * x + y * y + z * z)))) by (unfold Rdiv; ring).
  rewrite Hn. ring.
Qed.

(** For two point masses (zero inverse inertia), unit rotations and a unit
    normal, one call of [handleContactConstraint] leaves the contact
    constraint [d = ((q1 r1 + x1) - (q2 r2 + x2)) . n] at [min(d, 0)]: a
    penetrating contact ([d > 0]) is closed exactly, and the tangential
    (static friction) step, which moves along a direction orthogonal to
    [n], does not reopen it; the rotations are not changed. *)
Theorem handleContactConstraint_point_mass_resolves :
  forall ps prev1 prev2 m1 m2 mu1 mu2 r1 r2 n ln lt,
  dot n n = 1 -> unitQuat (q1 ps) -> unitQuat (q2 ps) -> m1 + m2 <> 0 ->
  let ps' := fst (fst (handleContactConstraint ps prev1 prev2 m1 m2 vzero vzero
                         mu1 mu2 r1 r2 n ln lt)) in
  constraintValue ps' r1 r2 n = Rmin (constraintValue ps r1 r2 n) 0 /\
  q1 ps' = q1 ps /\ q2 ps' = q2 ps.
Proof.
  intros ps prev1 prev2 m1 m2 mu1 mu2 r1 r2 n ln lt Hn H1 H2 Hm ps'.
  unfold ps', handleContactConstraint.
  change (dot (vsub (vadd (rotateVec (q1 ps) r1) (x1 ps)) (vadd (rotateVec (q2 ps) r2) (x2 ps))) n)
    with (constraintValue ps r1 r2 n).
  destruct (Rle_dec (constraintValue ps r1 r2 n) 0) as [Hd|Hd].
  - simpl. rewrite Rmin_left by lra. auto.
  - rewrite Rmin_right by lra.
    match goal with
    | |- context [applyPositionalUpdate ps ?a ?b ?c ?d ?e ?f ?g ?h ?i ?j ?k ?l ?m] =>
        destruct (applyPositionalUpdate_point_mass ps a b c d g h i j k l m n H1 H2)
          as (Hq1 & Hq2 & Hv);
        destruct (applyPositionalUpdate ps a b c d e f g h i j k l m) as [ps1 ln1]
    end.
    simpl in Hq1, Hq2, Hv. unfold neverCheck in Hv.
    assert (Hv0 : constraintValue ps1 r1 r2 n = 0).
    { rewrite Hv, Hn. field_simplify; [|lra]. lra. }
    rewrite <- Hq1 in H1. rewrite <- Hq2 in H2.
    destruct (Rlt_dec 0 _) as [Ht|Ht]; [|simpl; auto].
    match goal with
    | |- context [applyPositionalUpdate ps1 ?a ?b ?c ?d ?e ?f ?g ?h ?i ?j ?k ?l ?m] =>
        destruct (applyPositionalUpdate_point_mass ps1 a b c d g h i j k l m n H1 H2)
          as (Hq1' & Hq2' & Hv');
        destruct (applyPositionalUpdate ps1 a b c d e f g h i j k l m) as [ps2 lt2]
    end.
    simpl in Hq1', Hq2', Hv' |- *.
    rewrite Hv', Hv0, dot_tangent_normal by exact Hn.
    split; [destruct (thresholdCheck _ _); ring|].
    split; [rewrite Hq1'|rewrite Hq2']; auto.
Qed.

Lemma handleContactConstraint_point_mass_resolves_witness :
  let ps := mkPoses (mkV3 0 0 1) vzero qid qid in
  (dot baseNormal baseNormal = 1 /\ unitQuat qid /\ 1 + 1 <> 0) /\
  constraintValue (fst (fst (handleContactConstraint ps (mkPrev vzero qid) (mkPrev vzero qid)
                               1 1 vzero vzero (1 / 2) (1 / 2) vzero vzero baseNormal 0 0)))
    vzero vzero baseNormal =
  Rmin (constraintValue ps vzero vzero baseNormal) 0.
Proof.
  split.
  - unfold unitQuat, qid; vec_eval; repeat split; lra.
  - apply (proj1 (handleContactConstraint_point_mass_resolves
                    (mkPoses (mkV3 0 0 1) vzero qid qid) (mkPrev vzero qid) (mkPrev vzero qid)
                    1 1 (1 / 2) (1 / 2) vzero vzero baseNormal 0 0
                    ltac:(vec_eval; lra) ltac:(unfold unitQuat, qid; simpl; lra)
                    ltac:(unfold unitQuat, qid; simpl; lra) ltac:(lra))).
Defined.

Lemma relVel_applyVelocityUpdate_point_mass : forall vs r1 r2 m1 m2 dw d1 d2 mag k,
  dot k (relVel (applyVelocityUpdate vs r1 r2 m1 m2 vzero vzero dw d1 d2 mag) r1 r2) =
  dot k (relVel vs r1 r2) + mag * (1 / (m1 + m2)) * (m1 + m2) * dot k dw.
Proof.
  intros. unfold applyVelocityUpdate. rewrite !generalizedInverseMass_zero_inertia.
  unfold relVel. simpl.
  destruct (v1 vs) as [a1 b1 c1], (v2 vs) as [a2 b2 c2], (omega1 vs) as [a3 b3 c3],
           (omega2 vs) as [a4 b4 c4], dw as [a5 b5 c5], k as [a6 b6 c6],
           r1 as [a7 b7 c7], r2 as [a8 b8 c8].
  unfold dot, vsub, vadd, vmuls, multDiag, cross, vzero; simpl. ring.
Qed.

(** The dynamic-friction direction is orthogonal to a unit normal. *)
Lemma dot_normal_friction_dir : forall v n s,
  dot n n = 1 -> dot n (vdiv (vsub v (vmuls n (dot n v))) s) = 0.
Proof.
  intros [a b c] [x y z] s Hn. unfold dot, vdiv, vsub, vmuls in *; simpl in *.
  replace (x * ((a - x * (x * a + y * b + z * c)) / s) + y * ((b - y * (x * a + y * b + z * c)) / s) +
           z * ((c - z * (x * a + y * b + z * c)) / s))
    with (/ s * ((x * a + y * b + z * c) * (1 - (x * x + y * y + z * z)))) by (unfold Rdiv; ring).
  rewrite Hn. ring.
Qed.

(** For two point masses (zero inverse inertia) with a unit contact normal
    and [invMass1 + invMass2 <> 0], one contact point of the velocity solve
    leaves the normal relative velocity at that point at exactly
    [min(-e * vn_bar, 0)]: the friction impulse is tangential and does not
    change it, and the restitution impulse sets it. *)
Theorem velocityPointStep_point_mass_restitution :
  forall q1 q2 start1 start2 pv1 pv2 m1 m2 contact dyn thr i vs,
  invInertiaTensor m1 = vzero -> invInertiaTensor m2 = vzero ->
  dot (normal contact) (normal contact) = 1 -> invMass m1 + invMass m2 <> 0 ->
  let r1 := fst (getLocalSpaceContacts start1 start2 contact i) in
  let r2 := snd (getLocalSpaceContacts start1 start2 contact i) in
  let n := normal contact in
  let vn_bar := dot n (vsub (vadd (prevLinear pv1) (cross (prevAngular pv1) r1))
                            (vadd (prevLinear pv2) (cross (prevAngular pv2) r2))) in
  let e := if Rle_dec (Rabs vn_bar) thr then 0 else 4 / 10 in
  dot n (relVel (velocityPointStep q1 q2 start1 start2 pv1 pv2 m1 m2 contact dyn thr i vs)
           r1 r2) = Rmin (- e * vn_bar) 0.
Proof.
  intros q1 q2 start1 start2 pv1 pv2 m1 m2 contact dyn thr i vs HI1 HI2 Hn Hm.
  unfold velocityPointStep.
  destruct (getLocalSpaceContacts start1 start2 contact i) as [r1 r2]. cbv zeta. simpl fst; simpl snd.
  rewrite HI1, HI2.
  change (vsub (vadd (v1 vs) (cross (omega1 vs) r1)) (vadd (v2 vs) (cross (omega2 vs) r2)))
    with (relVel vs r1 r2).
  rewrite relVel_applyVelocityUpdate_point_mass, Hn.
  assert (Hf : dot (normal contact)
                 (relVel (frictionUpdate q1 q2 m1 m2 dyn r1 r2
                            (vsub (relVel vs r1 r2)
                               (vmuls (normal contact) (dot (normal contact) (relVel vs r1 r2))))
                            vs) r1 r2) =
               dot (normal contact) (relVel vs r1 r2)).
  { unfold frictionUpdate.
    destruct (Req_EM_T _ 0); [reflexivity|].
    destruct (Req_EM_T dyn 0); [reflexivity|].
    rewrite HI1, HI2, relVel_applyVelocityUpdate_point_mass, dot_normal_friction_dir by exact Hn.
    ring. }
  rewrite Hf. field. exact Hm.
Qed.

Lemma velocityPointStep_point_mass_restitution_witness :
  let c := mkContact 0%nat 1%nat [v4zero; v4zero; v4zero; v4zero] 1%Z baseNormal 0 in
  let st := mkStart vzero qid in
  let pv := mkVelState (mkV3 0 0 (-5)) vzero in
  let m := mkMeta vzero 1 (1 / 2) (1 / 2) in
  (invInertiaTensor m = vzero /\ dot (normal c) (normal c) = 1 /\ invMass m + invMass m <> 0) /\
  dot (normal c) (relVel (velocityPointStep qid qid st st pv (mkVelState vzero vzero) m m c 0 1
                            0%nat (mkVelPair (mkV3 0 0 (-5)) vzero vzero vzero))
                   (fst (getLocalSpaceContacts st st c 0%nat))
                   (snd (getLocalSpaceContacts st st c 0%nat))) =
  Rmin (- (if Rle_dec (Rabs (dot (normal c)
             (vsub (vadd (prevLinear pv) (cross (prevAngular pv)
                                            (fst (getLocalSpaceContacts st st c 0%nat))))
                   (vadd vzero (cross vzero (snd (getLocalSpaceContacts st st c 0%nat)))))))
             1 then 0 else 4 / 10) *
          dot (normal c)
            (vsub (vadd (prevLinear pv) (cross (prevAngular pv)
                                           (fst (getLocalSpaceContacts st st c 0%nat))))
                  (vadd vzero (cross vzero (snd (getLocalSpaceContacts st st c 0%nat)))))) 0.
Proof.
  split.
  - split; [reflexivity|split]; unfold dot, baseNormal; simpl; lra.
  - exact (velocityPointStep_point_mass_restitution qid qid (mkStart vzero qid) (mkStart vzero qid)
             (mkVelState (mkV3 0 0 (-5)) vzero) (mkVelState vzero vzero)
             (mkMeta vzero 1 (1 / 2) (1 / 2)) (mkMeta vzero 1 (1 / 2) (1 / 2))
             (mkContact 0%nat 1%nat [v4zero; v4zero; v4zero; v4zero] 1%Z baseNormal 0) 0 1
             0%nat (mkVelPair (mkV3 0 0 (-5)) vzero vzero vzero)
             eq_refl eq_refl ltac:(unfold dot, baseNormal; simpl; lra) ltac:(simpl; lra)).
Defined.

(** *** Narrowphase *)

Lemma npAddContacts_single_shape : forall st c st',
  npAddContacts st [c] = Some st' ->
  contacts (solver st') = contacts (solver st) ++ [(numContacts (solver st), c)] /\
  numContacts (solver st') = (numContacts (solver st) + 1)%Z /\
  (numContacts (solver st) < maxContacts (solver st))%Z /\
  maxContacts (solver st') = maxContacts (solver st) /\ events st' = events st.
Proof.
  intros st c st' H. unfold npAddContacts, addContacts in H.
  destruct (Z.ltb _ _) eqn:E; [|discriminate].
  apply Z.ltb_lt in E. inversion H; subst. simpl. repeat split; auto.
Qed.

Lemma npAddContacts_none : forall st cs,
  npAddContacts st cs = None -> (maxContacts (solver st) <= numContacts (solver st))%Z.
Proof.
  intros st cs H. unfold npAddContacts, addContacts in H.
  destruct (Z.ltb _ _) eqn:E; [discriminate|]. apply Z.ltb_ge in E. exact E.
Qed.

(** One narrowphase run either leaves the contact count as it was or adds
    exactly one contact, stored at the old [numContacts], which was below
    the capacity; that contact is between the candidate's two entities, in
    one order or the other. *)
Theorem runNarrowphase_contact_bodies : forall doSAT doSATPlane w obj_mgr st cand st',
  runNarrowphase doSAT doSATPlane w obj_mgr st cand = Some st' ->
  maxContacts (solver st') = maxContacts (solver st) /\
  (solver st' = solver st \/
   (numContacts (solver st') = (numContacts (solver st) + 1)%Z /\
    (numContacts (solver st) < maxContacts (solver st))%Z /\
    exists c, contacts (solver st') = contacts (solver st) ++ [(numContacts (solver st), c)] /\
      ((ref c = cand_a cand /\ alt c = cand_b cand) \/
       (ref c = cand_b cand /\ alt c = cand_a cand)))).
Proof.
  intros doSAT doSATPlane w obj_mgr st [a b] st' H.
  unfold runNarrowphase in H; simpl in H.
  destruct (primitives obj_mgr (objectID (w a))) as [ra|ma|] eqn:Pa;
  destruct (primitives obj_mgr (objectID (w b))) as [rb|mb|] eqn:Pb;
  simpl in H.
  all: repeat match type of H with
       | context [aIsReference ?m] => destruct (aIsReference m)
       | context [Rlt_dec ?x ?y] => destruct (Rlt_dec x y)
       | context [Z.ltb ?x ?y] => destruct (Z.ltb x y) eqn:?
       | context [npAddContacts ?s ?l] =>
           let E := fresh "Hadd" in destruct (npAddContacts s l) eqn:E
       end.
  all: try discriminate.
  all: try (inversion H; subst; split; [reflexivity | left; reflexivity]).
  all: inversion H; subst; clear H.
  all: match goal with
       | E : npAddContacts _ [?c] = Some _ |- _ =>
           apply npAddContacts_single_shape in E as (Hc & Hn & Hlt & Hmax & _);
           split; [exact Hmax|]; right; split; [exact Hn|]; split; [exact Hlt|];
           exists c; split; [exact Hc|]
       end.
  all: unfold manifoldContact; cbn [ref alt cand_a cand_b]; auto.
Qed.

Lemma runNarrowphase_contact_bodies_witness : exists st',
  runNarrowphase noSAT noSATPlane world0 objMgr npState0 (mkCandidate 0%nat 1%nat) = Some st' /\
  maxContacts (solver st') = maxContacts (solver npState0) /\
  (solver st' = solver npState0 \/
   (numContacts (solver st') = (numContacts (solver npState0) + 1)%Z /\
    (numContacts (solver npState0) < maxContacts (solver npState0))%Z /\
    exists c, contacts (solver st') =
                contacts (solver npState0) ++ [(numContacts (solver npState0), c)] /\
      ((ref c = cand_a (mkCandidate 0%nat 1%nat) /\ alt c = cand_b (mkCandidate 0%nat 1%nat)) \/
       (ref c = cand_b (mkCandidate 0%nat 1%nat) /\ alt c = cand_a (mkCandidate 0%nat 1%nat))))).
Proof.
  destruct spherePlane_below_run as [c [Hrun _]].
  eexists. split; [exact Hrun|].
  exact (runNarrowphase_contact_bodies noSAT noSATPlane world0 objMgr npState0
           (mkCandidate 0%nat 1%nat) _ Hrun).
Defined.

(** Only a sphere/sphere pair in contact records a [CollisionEvent]: every
    successful run leaves the events as they were, or appends the one event
    [{cand.a, cand.b}], and then both entities' objects are spheres. *)
Theorem runNarrowphase_events : forall doSAT doSATPlane w obj_mgr st cand st',
  runNarrowphase doSAT doSATPlane w obj_mgr st cand = Some st' ->
  events st' = events st \/
  (events st' = events st ++ [mkEvent (cand_a cand) (cand_b cand)] /\
   exists ra rb, primitives obj_mgr (objectID (w (cand_a cand))) = Sphere ra /\
                 primitives obj_mgr (objectID (w (cand_b cand))) = Sphere rb).
Proof.
  intros doSAT doSATPlane w obj_mgr st [a b] st' H.
  unfold runNarrowphase in H; simpl in H.
  destruct (primitives obj_mgr (objectID (w a))) as [ra|ma|] eqn:Pa;
  destruct (primitives obj_mgr (objectID (w b))) as [rb|mb|] eqn:Pb;
  simpl in H.
  all: repeat match type of H with
       | context [aIsReference ?m] => destruct (aIsReference m)
       | context [Rlt_dec ?x ?y] => destruct (Rlt_dec x y)
       | context [Z.ltb ?x ?y] => destruct (Z.ltb x y) eqn:?
       | context [npAddContacts ?s ?l] =>
           let E := fresh "Hadd" in destruct (npAddContacts s l) eqn:E
       end.
  all: try discriminate.
  all: try (inversion H; subst; left; reflexivity).
  all: inversion H; subst; clear H.
  all: match goal with
       | E : npAddContacts _ [?c] = Some _ |- _ =>
           apply npAddContacts_single_shape in E as (_ & _ & _ & _ & He)
       end.
  all: try (left; exact He).
  right. simpl. rewrite He. split; [reflexivity|]. exists ra, rb. auto.
Qed.

Lemma runNarrowphase_events_witness : exists st',
  runNarrowphase noSAT noSATPlane world0 objMgr npState0 (mkCandidate 0%nat 1%nat) = Some st' /\
  (events st' = events npState0 \/
   (events st' = events npState0 ++ [mkEvent 0%nat 1%nat] /\
    exists ra rb, primitives objMgr (objectID (world0 0%nat)) = Sphere ra /\
                  primitives objMgr (objectID (world0 1%nat)) = Sphere rb)).
Proof.
  destruct spherePlane_below_run as [c [Hrun _]].
  eexists. split; [exact Hrun|].
  exact (runNarrowphase_events noSAT noSATPlane world0 objMgr npState0
           (mkCandidate 0%nat 1%nat) _ Hrun).
Defined.

(** The narrowphase fails (a failed assertion) only on a sphere/hull pair,
    whose branch is [assert(false)], or when the contact buffer is already
    full; the [__builtin_unreachable()] default is never reached, since the
    bitwise or of two primitive types is always one of the six tests. *)
Theorem runNarrowphase_failure : forall doSAT doSATPlane w obj_mgr st cand,
  runNarrowphase doSAT doSATPlane w obj_mgr st cand = None ->
  N.lor (primType (primitives obj_mgr (objectID (w (cand_a cand)))))
        (primType (primitives obj_mgr (objectID (w (cand_b cand))))) = 3%N \/
  (maxContacts (solver st) <= numContacts (solver st))%Z.
Proof.
  intros doSAT doSATPlane w obj_mgr st [a b] H.
  unfold runNarrowphase in H; simpl in H |- *.
  destruct (primitives obj_mgr (objectID (w a))) as [ra|ma|] eqn:Pa;
  destruct (primitives obj_mgr (objectID (w b))) as [rb|mb|] eqn:Pb;
  simpl in H; simpl.
  all: try (left; reflexivity).
  all: repeat match type of H with
       | context [aIsReference ?m] => destruct (aIsReference m)
       | context [Rlt_dec ?x ?y] => destruct (Rlt_dec x y)
       | context [Z.ltb ?x ?y] => destruct (Z.ltb x y) eqn:?
       | context [npAddContacts ?s ?l] =>
           let E := fresh "Hadd" in destruct (npAddContacts s l) eqn:E
       end.
  all: try discriminate.
  all: right; eapply npAddContacts_none; eassumption.
Qed.

Lemma runNarrowphase_failure_witness :
  runNarrowphase noSAT noSATPlane world0 objMgr npState0 (mkCandidate 0%nat 2%nat) = None /\
  (N.lor (primType (primitives objMgr (objectID (world0 0%nat))))
         (primType (primitives objMgr (objectID (world0 2%nat)))) = 3%N \/
   (maxContacts (solver npState0) <= numContacts (solver npState0))%Z).
Proof.
  split; [reflexivity|].
  apply (runNarrowphase_failure noSAT noSATPlane world0 objMgr npState0 (mkCandidate 0%nat 2%nat)).
  reflexivity.
Defined.

Lemma updateCollisionAABB_contains_swept_witness :
  let M : Quat -> Mat3x3 := fun _ i j => if Nat.eqb i j then 1 else 0 in
  let box := mkAABB (mkV3 (-1) (-1) (-1)) vone in
  ((forall j, (j < 3)%nat -> vget (pMin box) j <= vget vzero j <= vget (pMax box) j) /\
   0 <= 1 / 2 <= 1 /\ Rabs 0 <= 100 * 1 * 1 /\ (0 < 3)%nat) /\
  vget (pMin (updateCollisionAABB M 1 vzero qid box (mkVelocity vone vzero))) 0 <=
    vget vzero 0 + rowDot (M qid) 0 [0; 1; 2]%nat vzero + 1 / 2 * (2 * vget vone 0 * 1 + 0) <=
  vget (pMax (updateCollisionAABB M 1 vzero qid box (mkVelocity vone vzero))) 0.
Proof.
  assert (Hbox : forall j, (j < 3)%nat ->
            vget (pMin (mkAABB (mkV3 (-1) (-1) (-1)) vone)) j <= vget vzero j <=
            vget (pMax (mkAABB (mkV3 (-1) (-1) (-1)) vone)) j).
  { intros j Hj. destruct j as [|[|[|j]]]; unfold vone, vzero; simpl; try lra; lia. }
  assert (Hs : Rabs 0 <= 100 * 1 * 1) by (rewrite Rabs_R0; lra).
  split; [split; [exact Hbox | split; [lra | split; [exact Hs | lia]]]|].
  exact (updateCollisionAABB_contains_swept (fun _ i j => if Nat.eqb i j then 1 else 0) 1 vzero qid
           (mkAABB (mkV3 (-1) (-1) (-1)) vone) (mkVelocity vone vzero) vzero (1 / 2) 0 0%nat
           Hbox ltac:(lra) Hs ltac:(lia)).
Defined.

(** *** Integration and velocity recovery *)

(** Normalizing a nonzero quaternion gives a unit quaternion. *)
Lemma normalize_nonzero_unit : forall q,
  0 < qw q * qw q + qx q * qx q + qy q * qy q + qz q * qz q -> unitQuat (normalize q).
Proof.
  intros [a b c d] Hn. simpl in Hn. unfold unitQuat, normalize, qlength. simpl.
  assert (Hl : sqrt (a * a + b * b + c * c + d * d) * sqrt (a * a + b * b + c * c + d * d) =
               a * a + b * b + c * c + d * d) by (apply sqrt_sqrt; lra).
  assert (Hp : 0 < sqrt (a * a + b * b + c * c + d * d)) by (apply sqrt_lt_R0; exact Hn).
  set (l := sqrt (a * a + b * b + c * c + d * d)) in *. clearbody l.
  replace (a / l * (a / l) + b / l * (b / l) + c / l * (c / l) + d / l * (d / l))
    with ((a * a + b * b + c * c + d * d) / (l * l)) by (field; lra).
  rewrite Hl. field. lra.
Qed.

(** [q + fromAngularVec(v) * q] has squared norm [|q|^2 (1 + |v|^2)]. *)
Lemma qadd_qmul_norm : forall v q,
  let q' := qadd q (qmul (fromAngularVec v) q) in
  qw q' * qw q' + qx q' * qx q' + qy q' * qy q' + qz q' * qz q' =
    (qw q * qw q + qx q * qx q + qy q * qy q + qz q * qz q) * (1 + dot v v).
Proof.
  intros [x y z] [a b c d]. unfold dot. simpl. ring.
Qed.

(** [substepRigidBodies] keeps a unit rotation a unit quaternion, whatever
    the body's metadata and velocity: the quaternion it normalizes has
    squared norm [1 + |h/2 * omega|^2 >= 1]. *)
Theorem substepRigidBodies_unit_rotation : forall solver md b,
  unitQuat (rotation b) -> unitQuat (rotation (substepRigidBodies solver md b)).
Proof.
  intros solver md b Hu. unfold substepRigidBodies. cbv zeta. simpl rotation.
  apply normalize_nonzero_unit.
  rewrite qadd_qmul_norm. unfold unitQuat in Hu. rewrite Hu.
  match goal with |- context [dot ?v ?v] => pose proof (dot_self_nonneg v) end.
  lra.
Qed.

(** The spinning sphere of [world0]: angular velocity [(1, 0, 0)]. *)
Lemma substepRigidBodies_unit_rotation_witness :
  unitQuat (rotation (bodyAt vzero qid (mkVelocity vzero (mkV3 1 0 0)) 0)) /\
  unitQuat (rotation (substepRigidBodies solver0 dynMeta
                        (bodyAt vzero qid (mkVelocity vzero (mkV3 1 0 0)) 0))).
Proof.
  split; [unfold unitQuat; simpl; ring|].
  apply substepRigidBodies_unit_rotation. unfold unitQuat; simpl; ring.
Defined.

(** Integration followed directly by [setVelocities] (no contact moved the
    body in between) gives back as linear velocity the gravity-updated
    velocity [v + h * g] for a dynamic body and [v] for a body with
    [invMass <= 0]: the finite difference undoes the position step. *)
Theorem substep_then_setVelocities_linear : forall solver md b,
  h solver <> 0 ->
  linear (setVelocities solver (substepRigidBodies solver md b)) =
    if Rlt_dec 0 (invMass md)
    then vadd (linear (velocity b)) (vscale (h solver) (g solver))
    else linear (velocity b).
Proof.
  intros solver md b Hh. unfold setVelocities, substepRigidBodies. cbv zeta. simpl.
  destruct (Rlt_dec 0 (invMass md)); simpl;
  destruct (position b) as [a1 b1 c1], (linear (velocity b)) as [a2 b2 c2], (g solver) as [a3 b3 c3];
  unfold vdiv, vsub, vadd, vscale; simpl; f_equal; field; exact Hh.
Qed.

Lemma substep_then_setVelocities_linear_witness :
  h solver0 <> 0 /\
  linear (setVelocities solver0 (substepRigidBodies solver0 dynMeta (world0 0%nat))) =
    if Rlt_dec 0 (invMass dynMeta)
    then vadd (linear (velocity (world0 0%nat))) (vscale (h solver0) (g solver0))
    else linear (velocity (world0 0%nat)).
Proof.
  assert (Hh : h solver0 <> 0) by (unfold solver0, initSolverData, h; simpl; lra).
  split; [exact Hh|].
  exact (substep_then_setVelocities_linear solver0 dynMeta (world0 0%nat) Hh).
Defined.

(** *** Static bodies in the velocity solve *)

Lemma applyVelocityUpdate_static : forall vs r1 r2 m1 m2 I1 I2 dw d1 d2 mag,
  let vs' := applyVelocityUpdate vs r1 r2 m1 m2 I1 I2 dw d1 d2 mag in
  (m1 = 0 -> I1 = vzero -> v1 vs' = v1 vs /\ omega1 vs' = omega1 vs) /\
  (m2 = 0 -> I2 = vzero -> v2 vs' = v2 vs /\ omega2 vs' = omega2 vs).
Proof.
  intros. unfold vs', applyVelocityUpdate. cbv zeta.
  split; intros H1 H2; subst; simpl;
  [destruct (v1 vs) as [a b c], (omega1 vs) as [x y z] |
   destruct (v2 vs) as [a b c], (omega2 vs) as [x y z]];
  unfold vadd, vsub, vmuls, multDiag, vzero; simpl; split; f_equal; ring.
Qed.

Lemma velocityPoints_static : forall is qa qb s1 s2 p1 p2 m1 m2 c dyn thr vs,
  let vs' := velocityPoints is qa qb s1 s2 p1 p2 m1 m2 c dyn thr vs in
  (invMass m1 = 0 -> invInertiaTensor m1 = vzero -> v1 vs' = v1 vs /\ omega1 vs' = omega1 vs) /\
  (invMass m2 = 0 -> invInertiaTensor m2 = vzero -> v2 vs' = v2 vs /\ omega2 vs' = omega2 vs).
Proof.
  induction is as [|i rest IH]; intros; unfold vs'; simpl; [split; auto|].
  set (vs1 := if Z.leb (numPoints c) (Z.of_nat i) then vs
              else velocityPointStep qa qb s1 s2 p1 p2 m1 m2 c dyn thr i vs).
  assert (Hstep :
    (invMass m1 = 0 -> invInertiaTensor m1 = vzero -> v1 vs1 = v1 vs /\ omega1 vs1 = omega1 vs) /\
    (invMass m2 = 0 -> invInertiaTensor m2 = vzero -> v2 vs1 = v2 vs /\ omega2 vs1 = omega2 vs)).
  { unfold vs1. destruct (Z.leb _ _); [split; auto|].
    unfold velocityPointStep.
    destruct (getLocalSpaceContacts s1 s2 c i) as [r1 r2]. cbv zeta.
    match goal with
    | |- context [applyVelocityUpdate ?v ?a ?b ?c' ?d ?e ?f ?g ?h' ?i' ?j] =>
        destruct (applyVelocityUpdate_static v a b c' d e f g h' i' j) as [Ha Hb];
        set (vf := v) in *
    end.
    assert (Hf :
      (invMass m1 = 0 -> invInertiaTensor m1 = vzero -> v1 vf = v1 vs /\ omega1 vf = omega1 vs) /\
      (invMass m2 = 0 -> invInertiaTensor m2 = vzero -> v2 vf = v2 vs /\ omega2 vf = omega2 vs)).
    { unfold vf, frictionUpdate.
      destruct (Req_EM_T _ 0); [split; auto|].
      destruct (Req_EM_T dyn 0); [split; auto|].
      apply applyVelocityUpdate_static. }
    destruct Hf as [Hf1 Hf2].
    split; intros Hm HI.
    - destruct (Ha Hm HI) as [-> ->]. apply Hf1; assumption.
    - destruct (Hb Hm HI) as [-> ->]. apply Hf2; assumption. }
  destruct Hstep as [Hs1 Hs2].
  destruct (IH qa qb s1 s2 p1 p2 m1 m2 c dyn thr vs1) as [Hi1 Hi2].
  split; intros Hm HI.
  - destruct (Hi1 Hm HI) as [-> ->]. apply Hs1; assumption.
  - destruct (Hi2 Hm HI) as [-> ->]. apply Hs2; assumption.
Qed.

Lemma updateVelocityFromContact_static : forall w obj_mgr c hh thr e,
  invMass (metadata obj_mgr (objectID (w e))) = 0 ->
  invInertiaTensor (metadata obj_mgr (objectID (w e))) = vzero ->
  velocity (updateVelocityFromContact w obj_mgr c hh thr e) = velocity (w e).
Proof.
  intros w obj_mgr c hh thr e Hm HI. unfold updateVelocityFromContact. cbv zeta.
  match goal with
  | |- context [velocityPoints ?is ?a ?b ?s1 ?s2 ?p1 ?p2 ?m1 ?m2 c ?dyn thr ?vs] =>
      destruct (velocityPoints_static is a b s1 s2 p1 p2 m1 m2 c dyn thr vs) as [H1 H2];
      set (vs' := velocityPoints is a b s1 s2 p1 p2 m1 m2 c dyn thr vs) in *
  end.
  simpl in H1, H2. unfold setBody.
  destruct (Nat.eqb e (alt c)) eqn:Ea.
  - apply Nat.eqb_eq in Ea. subst e. simpl.
    destruct (H2 Hm HI) as [-> ->]. destruct (velocity (w (alt c))); reflexivity.
  - destruct (Nat.eqb e (ref c)) eqn:Er; [|reflexivity].
    apply Nat.eqb_eq in Er. subst e. simpl.
    destruct (H1 Hm HI) as [-> ->]. destruct (velocity (w (ref c))); reflexivity.
Qed.

(** A body whose object has [invMass = 0] and a zero inverse inertia
    tensor keeps its velocity through the whole velocity solve, when every
    contact of the buffer is solvable (so that the float code never computes
    [1.f / 0]): neither the friction nor the restitution impulses of any
    contact change it. *)
Theorem solveVelocities_static_body : forall mem0 obj_mgr w sd e,
  invMass (metadata obj_mgr (objectID (w e))) = 0 ->
  invInertiaTensor (metadata obj_mgr (objectID (w e))) = vzero ->
  (forall i, In i (contactIndices sd) ->
     solvableContact w obj_mgr (readContactFrom mem0 (contacts sd) i)) ->
  velocity (fst (solveVelocities mem0 obj_mgr w sd) e) = velocity (w e).
Proof.
  intros mem0 obj_mgr w sd e Hm HI _. unfold solveVelocities. simpl.
  generalize (contactIndices sd) as is. intros is.
  revert w Hm HI. induction is as [|i rest IH]; intros w Hm HI; simpl; [reflexivity|].
  set (c := readContactFrom mem0 (contacts sd) i).
  destruct (updateVelocityFromContact_pose w obj_mgr c (h sd) (restitutionThreshold sd) e)
    as (_ & _ & Ho).
  rewrite IH.
  - apply updateVelocityFromContact_static; assumption.
  - rewrite Ho. exact Hm.
  - rewrite Ho. exact HI.
Qed.

(** The static plane of [world0] under the active resting contact. *)
Lemma solveVelocities_static_body_witness :
  (invMass (metadata objMgr (objectID (world0 1%nat))) = 0 /\
   invInertiaTensor (metadata objMgr (objectID (world0 1%nat))) = vzero) /\
  0 < contactDepth world0 restingContact 0 /\
  velocity (fst (solveVelocities (fun _ => restingContact) objMgr world0
                   (withContacts solver0 [(0%Z, restingContact)] 1)) 1%nat) =
    velocity (world0 1%nat).
Proof.
  split; [split; reflexivity|]. split; [exact restingContact_active|].
  apply (solveVelocities_static_body (fun _ => restingContact) objMgr world0
           (withContacts solver0 [(0%Z, restingContact)] 1) 1%nat);
    [reflexivity | reflexivity | exact restingContact_indices].
Defined.
